(** * Suspicion-weighted transaction graph: model and verification

    Shallow embedding of [codigo_prueba_rastreo.py], which holds two scripts:
    the network analysis (lines 1-189) and the threshold classifier with its
    evaluation (lines 191-342).

    Numbers.  Python's [int] and [float] values are both embedded in [Q]:
    amounts and frequencies are exact, and the floating-point quotient
    [1000 / suspicion_score] and the sums of edge weights are taken as exact
    rationals (rounding is not modelled).  [float("inf")] is a separate
    constructor.

    Containers.  A Python [dict] keeps its keys in insertion order and the
    order is observable (iteration over the successors of a node decides the
    order of the pushes on the heap), so dictionaries are association lists
    with in-place replacement of a key that is already present.

    Library routines.  [networkx] and [sklearn] are not part of the
    repository; the routines the scripts call ([DiGraph.add_node],
    [DiGraph.add_edge], [dijkstra_path], [dijkstra_path_length],
    [confusion_matrix]) are embedded after the library sources, specialised
    to the arguments the scripts pass ([cutoff] and [pred] are never given). *)

From Stdlib Require Import List String Bool Arith ZArith QArith Lia Lqa Sorted.
Import ListNotations.

Local Open Scope string_scope.
Local Open Scope list_scope.
Local Open Scope Q_scope.

(** ** Exceptions *)

(** The Python exceptions the two scripts can meet.  [FuelExhausted] is not a
    Python exception: it marks the bound of the model's [while] loop, and
    [loop_total] below shows that the bound used is never reached. *)
Inductive exn : Type :=
  | ZeroDivisionError
  | NetworkXNoPath
  | NodeNotFound
  | ValueError
  | KeyError
  | TypeError
  | NameError
  | FuelExhausted.

Inductive result (A : Type) : Type :=
  | Ok (a : A)
  | Raise (e : exn).
Arguments Ok {A} a.
Arguments Raise {A} e.

Definition bind {A B : Type} (m : result A) (k : A -> result B) : result B :=
  match m with
  | Ok a => k a
  | Raise e => Raise e
  end.

Notation "x <- m ;; k" := (bind m (fun x => k))
  (at level 61, m at next level, right associativity).

(** [for x in l: st = body(st, x)], where the body may raise. *)
Fixpoint for_each {A S : Type} (body : S -> A -> result S) (l : list A) (st : S)
  : result S :=
  match l with
  | [] => Ok st
  | x :: l' => st' <- body st x ;; for_each body l' st'
  end.

(** ** Dictionaries *)

Definition node := string.

Definition dict (V : Type) := list (node * V).

Fixpoint get {V : Type} (d : dict V) (k : node) : option V :=
  match d with
  | [] => None
  | (k', v) :: d' => if String.eqb k' k then Some v else get d' k
  end.

(** [d[k] = v]: a key already present keeps its position. *)
Fixpoint set {V : Type} (d : dict V) (k : node) (v : V) : dict V :=
  match d with
  | [] => [(k, v)]
  | (k', v') :: d' =>
      if String.eqb k' k then (k, v) :: d' else (k', v') :: set d' k v
  end.

Definition mem {V : Type} (d : dict V) (k : node) : bool :=
  match get d k with
  | Some _ => true
  | None => false
  end.

(** [k in l] for a Python list of strings. *)
Definition in_list (k : node) (l : list node) : bool :=
  existsb (String.eqb k) l.

(** ** Comparisons on numbers *)

Definition Qltb (a b : Q) : bool :=
  match a ?= b with
  | Lt => true
  | _ => false
  end.

(** A distance that may be [float("inf")]. *)
Inductive xdist : Type :=
  | Finite (q : Q)
  | Infinity.

(** [a < b] on such distances. *)
Definition xltb (a b : xdist) : bool :=
  match a, b with
  | Finite x, Finite y => Qltb x y
  | Finite _, Infinity => true
  | Infinity, _ => false
  end.

Definition xlt (a b : xdist) : Prop :=
  match a, b with
  | Finite x, Finite y => x < y
  | Finite _, Infinity => True
  | Infinity, _ => False
  end.

(** ** Suspicion weighting (lines 47-51 and 254-258) *)

Definition K : Q := 1000.

(** [suspicion_score = monto * frecuencia]. *)
Definition suspicion (monto frecuencia : Q) : Q := monto * frecuencia.

(** [K / x]; Python raises [ZeroDivisionError] when the divisor is zero. *)
Definition py_div (k x : Q) : result Q :=
  if Qeq_bool x 0 then Raise ZeroDivisionError else Ok (k / x).

(** The pair [(suspicion_score, weight)] computed for one transaction. *)
Definition weighting (monto frecuencia : Q) : result (Q * Q) :=
  let suspicion_score := suspicion monto frecuencia in
  weight <- py_div K suspicion_score ;;
  Ok (suspicion_score, weight).

(** ** The directed graph ([networkx.DiGraph]) *)

(** The attribute dictionary of an edge.  The scripts use four keys; a key
    that was never set is [None]. *)
Record attrs : Type := mkAttrs {
  a_weight : option Q;
  a_monto : option Q;
  a_frecuencia : option Q;
  a_suspicion_score : option Q
}.

Definition no_attrs : attrs := mkAttrs None None None None.

Definition override {A : Type} (old new : option A) : option A :=
  match new with
  | Some _ => new
  | None => old
  end.

(** [datadict.update(attr)]. *)
Definition update_attrs (old new : attrs) : attrs :=
  mkAttrs (override (a_weight old) (a_weight new))
          (override (a_monto old) (a_monto new))
          (override (a_frecuencia old) (a_frecuencia new))
          (override (a_suspicion_score old) (a_suspicion_score new)).

(** [G._adj]: node -> successor -> attributes. *)
Definition graph := dict (dict attrs).

Definition empty_graph : graph := [].

(** [G.add_node(n)]. *)
Definition add_node (G : graph) (n : node) : graph :=
  if mem G n then G else set G n [].

(** [G.add_edge(u, v, **attr)]: both ends are created when missing, and the
    attributes of an edge that exists are updated, not replaced. *)
Definition add_edge (G : graph) (u v : node) (attr : attrs) : graph :=
  let G1 := add_node G u in
  let G2 := add_node G1 v in
  let succ_u := match get G2 u with Some s => s | None => [] end in
  let datadict := match get succ_u v with Some d => d | None => no_attrs end in
  set G2 u (set succ_u v (update_attrs datadict attr)).

(** [G.get_edge_data(u, v)], [None] when the edge is absent. *)
Definition get_edge_data (G : graph) (u v : node) : option attrs :=
  match get G u with
  | Some s => get s v
  | None => None
  end.

Definition number_of_edges (G : graph) : nat :=
  fold_right (fun e n => (List.length (snd e) + n)%nat) 0%nat G.

(** A transaction row [(origen, destino, monto, frecuencia)]. *)
Definition transaction : Type := node * node * Q * Q.

(** Body of the loop of lines 46-60 (first script).  The rows of the data
    frame carry the transaction tuples unchanged: a frame with string and
    integer columns hands each row over as Python objects, so the product
    and the quotient are Python's. *)
Definition add_transaction1 (G : graph) (t : transaction) : result graph :=
  let '(origen, destino, monto, frecuencia) := t in
  sw <- weighting monto frecuencia ;;
  let '(suspicion_score, weight) := sw in
  Ok (add_edge G origen destino
        (mkAttrs (Some weight) (Some monto) (Some frecuencia)
                 (Some suspicion_score))).

(** Body of the loop of lines 252-261 (second script). *)
Definition add_transaction2 (G : graph) (t : transaction) : result graph :=
  let '(origen, destino, monto, frecuencia) := t in
  sw <- weighting monto frecuencia ;;
  let '(suspicion_score, weight) := sw in
  Ok (add_edge G origen destino
        (mkAttrs (Some weight) None None (Some suspicion_score))).

(** Lines 39-60. *)
Definition build_graph1 (accounts : list node) (transactions : list transaction)
  : result graph :=
  for_each add_transaction1 transactions (fold_left add_node accounts empty_graph).

(** Lines 243-261. *)
Definition build_graph2 (accounts : list node) (transactions : list transaction)
  : result graph :=
  for_each add_transaction2 transactions (fold_left add_node accounts empty_graph).

(** ** The sample data (lines 16-30 and 203-238) *)

Definition accounts : list node :=
  ["Cuenta_A"; "Cuenta_B"; "Cuenta_C"; "Cuenta_D"; "Cuenta_E";
   "Cuenta_F"; "Cuenta_G"; "Offshore_X"; "Offshore_Y"].

Definition transactions : list transaction :=
  [ ("Cuenta_A", "Cuenta_B", 50000, 5);
    ("Cuenta_B", "Cuenta_C", 45000, 4);
    ("Cuenta_C", "Offshore_X", 40000, 3);
    ("Cuenta_A", "Cuenta_D", 10000, 1);
    ("Cuenta_D", "Cuenta_E", 9000, 1);
    ("Cuenta_E", "Cuenta_F", 8000, 1);
    ("Cuenta_F", "Offshore_X", 7000, 1);
    ("Cuenta_A", "Cuenta_G", 30000, 2);
    ("Cuenta_G", "Offshore_Y", 28000, 2);
    ("Offshore_X", "Offshore_Y", 20000, 1) ].

Definition high_risk_accounts : list node := ["Offshore_X"; "Offshore_Y"].

(** The sample transactions without the two transfers into [Offshore_X]:
    [Cuenta_A] no longer reaches [Offshore_X]. *)
Definition transactions_without_route : list transaction :=
  [ ("Cuenta_A", "Cuenta_B", 50000, 5);
    ("Cuenta_B", "Cuenta_C", 45000, 4);
    ("Cuenta_A", "Cuenta_D", 10000, 1);
    ("Cuenta_D", "Cuenta_E", 9000, 1);
    ("Cuenta_E", "Cuenta_F", 8000, 1);
    ("Cuenta_A", "Cuenta_G", 30000, 2);
    ("Cuenta_G", "Offshore_Y", 28000, 2);
    ("Offshore_X", "Offshore_Y", 20000, 1) ].

Definition ground_truth : dict Z :=
  [ ("Cuenta_A", 0%Z); ("Cuenta_B", 1%Z); ("Cuenta_C", 1%Z);
    ("Cuenta_D", 0%Z); ("Cuenta_E", 0%Z); ("Cuenta_F", 0%Z);
    ("Cuenta_G", 1%Z); ("Offshore_X", 1%Z); ("Offshore_Y", 1%Z) ].

Definition THRESHOLD : Q := 5 # 100.

(** What the second script prints for the sample data (lines 307-310):
    the distance of every account and its label. *)
Definition sample_risk_distances : dict xdist :=
  [ ("Cuenta_A", Finite (96600000000000 # 5400000000000000));
    ("Cuenta_B", Finite (300000000 # 21600000000));
    ("Cuenta_C", Finite (1000 # 120000));
    ("Cuenta_D", Finite (191000000000 # 504000000000));
    ("Cuenta_E", Finite (15000000 # 56000000));
    ("Cuenta_F", Finite (1000 # 7000));
    ("Cuenta_G", Finite (1000 # 56000));
    ("Offshore_X", Finite 0);
    ("Offshore_Y", Finite 0) ].

Definition sample_predictions : dict Z :=
  [ ("Cuenta_A", 1%Z); ("Cuenta_B", 1%Z); ("Cuenta_C", 1%Z);
    ("Cuenta_D", 0%Z); ("Cuenta_E", 0%Z); ("Cuenta_F", 0%Z);
    ("Cuenta_G", 1%Z); ("Offshore_X", 1%Z); ("Offshore_Y", 1%Z) ].

(** ** Weighted shortest paths ([networkx.algorithms.shortest_paths.weighted]) *)

(** [_weight_function(G, "weight")]: [data.get("weight", 1)]. *)
Definition weight_fn (e : attrs) : Q :=
  match a_weight e with
  | Some w => w
  | None => 1
  end.

(** An entry [(distance, c, node)] of the heap [fringe].  Tuples are compared
    lexicographically; the counter [c] is fresh at every push, so the
    comparison never reaches the node. *)
Definition item : Type := Q * nat * node.

Definition item_ltb (x y : item) : bool :=
  let '(d1, c1, _) := x in
  let '(d2, c2, _) := y in
  match d1 ?= d2 with
  | Lt => true
  | Eq => Nat.ltb c1 c2
  | Gt => false
  end.

(** The least entry of [x :: l] and the entries left.  [heapq] keeps the
    entries in an array in heap order; only the entry popped is observable,
    so the heap is a plain list here. *)
Fixpoint pop_min (x : item) (l : list item) : item * list item :=
  match l with
  | [] => (x, [])
  | y :: l' =>
      let '(m, r) := pop_min y l' in
      if item_ltb m x then (m, x :: r) else (x, y :: l')
  end.

Definition heappop (h : list item) : option (item * list item) :=
  match h with
  | [] => None
  | x :: l => Some (pop_min x l)
  end.

Definition heappush (h : list item) (x : item) : list item := x :: h.

(** The local state of [_dijkstra_multisource]: [dist] (final distances),
    [seen], the heap [fringe], the counter [c] and the optional [paths]
    dictionary handed in by the caller. *)
Record dstate : Type := mkState {
  dist : dict Q;
  seen : dict Q;
  fringe : list item;
  counter : nat;
  paths : option (dict (list node))
}.

(** Body of [for u, e in G_succ[v].items()], where [dv] is [dist[v]]. *)
Definition relax (v : node) (dv : Q) (st : dstate) (ue : node * attrs)
  : result dstate :=
  let '(u, e) := ue in
  let cost := weight_fn e in
  let vu_dist := dv + cost in
  match get (dist st) u with
  | Some u_dist =>
      if Qltb vu_dist u_dist then Raise ValueError else Ok st
  | None =>
      let better :=
        match get (seen st) u with
        | None => true
        | Some seen_u => Qltb vu_dist seen_u
        end in
      if better then
        paths' <- match paths st with
                  | None => Ok None
                  | Some p =>
                      match get p v with
                      | Some pv => Ok (Some (set p u (pv ++ [u])))
                      | None => Raise KeyError
                      end
                  end ;;
        Ok (mkState (dist st) (set (seen st) u vu_dist)
                    (heappush (fringe st) (vu_dist, counter st, u))
                    (S (counter st)) paths')
      else Ok st
  end.

(** [while fringe: ...], bounded by [fuel] iterations. *)
Fixpoint dijkstra_loop (G : graph) (target : node) (fuel : nat) (st : dstate)
  : result dstate :=
  match fuel with
  | O => Raise FuelExhausted
  | S fuel' =>
      match heappop (fringe st) with
      | None => Ok st
      | Some ((d, _, v), rest) =>
          if mem (dist st) v then
            dijkstra_loop G target fuel'
              (mkState (dist st) (seen st) rest (counter st) (paths st))
          else
            let st' := mkState (set (dist st) v d) (seen st) rest
                               (counter st) (paths st) in
            if String.eqb v target then Ok st'
            else
              match get G v with
              | None => Raise KeyError
              | Some succ_v =>
                  st'' <- for_each (relax v d) succ_v st' ;;
                  dijkstra_loop G target fuel' st''
              end
      end
  end.

(** Every iteration pops one entry and only the first visit of a node pushes,
    at most one entry per outgoing edge: [2 + number_of_edges G] iterations
    are never used up (lemma [loop_total]). *)
Definition loop_bound (G : graph) : nat := S (S (number_of_edges G)).

(** [_dijkstra_multisource(G, [source], weight, paths=paths, target=target)]. *)
Definition dijkstra_multisource (G : graph) (source target : node)
    (paths0 : option (dict (list node))) : result dstate :=
  dijkstra_loop G target (loop_bound G)
    (mkState [] [(source, 0)] (heappush [] (0, 0%nat, source)) 1%nat paths0).

(** [nx.dijkstra_path_length(G, source, target, weight="weight")]. *)
Definition dijkstra_path_length (G : graph) (source target : node) : result Q :=
  if negb (mem G source) then Raise NodeNotFound
  else if String.eqb source target then Ok 0
  else
    st <- dijkstra_multisource G source target None ;;
    match get (dist st) target with
    | Some d => Ok d
    | None => Raise NetworkXNoPath
    end.

(** [nx.dijkstra_path(G, source, target, weight="weight")], through
    [multi_source_dijkstra]; the pair [(length, path)] is computed and the
    path returned. *)
Definition dijkstra_path (G : graph) (source target : node)
  : result (list node) :=
  if negb (mem G source) then Raise NodeNotFound
  else if String.eqb target source then Ok [target]
  else
    st <- dijkstra_multisource G source target (Some [(source, [source])]) ;;
    match get (dist st) target, paths st with
    | Some _, Some p =>
        match get p target with
        | Some path => Ok path
        | None => Raise NetworkXNoPath
        end
    | _, _ => Raise NetworkXNoPath
    end.

(** ** First script: most suspicious path (lines 67-97) *)

(** The variables [path], [length] and [total_amount], each unbound ([None])
    until the statement that assigns it has run. *)
Record path_vars : Type := mkPathVars {
  v_path : option (list node);
  v_length : option Q;
  v_total_amount : option Q
}.

(** Lines 82-90: the amounts of the edges [path[i] -> path[i+1]] are added
    up.  [get_edge_data] gives [None] for a missing edge, which cannot be
    subscripted, and a missing attribute is a [KeyError]. *)
Fixpoint sum_amounts (G : graph) (path : list node) (total_amount : Q)
  : result Q :=
  match path with
  | src :: (dst :: _) as rest =>
      match get_edge_data G src dst with
      | None => Raise TypeError
      | Some edge_data =>
          match a_monto edge_data, a_frecuencia edge_data,
                a_suspicion_score edge_data with
          | Some amount, Some _, Some _ =>
              sum_amounts G rest (total_amount + amount)
          | _, _, _ => Raise KeyError
          end
      end
  | _ => Ok total_amount
  end.

(** Lines 70-97: the [try] block and its handler.  [NetworkXNoPath] is
    caught, leaving unbound whatever was not yet assigned; any other
    exception goes on.  Only the two searches can raise [NetworkXNoPath]:
    the loop over the edges of the path calls neither. *)
Definition find_path (G : graph) (source target : node) : result path_vars :=
  match dijkstra_path G source target with
  | Raise NetworkXNoPath => Ok (mkPathVars None None None)
  | Raise e => Raise e
  | Ok path =>
      match dijkstra_path_length G source target with
      | Raise NetworkXNoPath => Ok (mkPathVars (Some path) None None)
      | Raise e => Raise e
      | Ok length =>
          total_amount <- sum_amounts G path 0 ;;
          Ok (mkPathVars (Some path) (Some length) (Some total_amount))
      end
  end.

(** ** First script: risk scores (lines 122-150) *)

Record risk_entry : Type := mkRisk {
  puntaje_riesgo : Q;
  cuenta_cercana : option node;
  distancia : xdist
}.

(** Lines 130-137: one high-risk account is tried; the state is
    [(min_distance, closest_account)]. *)
Definition nearest_step (G : graph) (account : node)
    (st : xdist * option node) (risk_account : node)
  : result (xdist * option node) :=
  match dijkstra_path_length G account risk_account with
  | Ok distance =>
      if xltb (Finite distance) (fst st)
      then Ok (Finite distance, Some risk_account)
      else Ok st
  | Raise NetworkXNoPath => Ok st
  | Raise e => Raise e
  end.

(** Lines 123-150: body of the loop over [accounts]. *)
Definition risk_step1 (G : graph) (high_risk : list node)
    (risk_scores : dict risk_entry) (account : node)
  : result (dict risk_entry) :=
  if in_list account high_risk then Ok risk_scores
  else
    st <- for_each (nearest_step G account) high_risk (Infinity, None) ;;
    let '(min_distance, closest_account) := st in
    match min_distance with
    | Finite m =>
        puntaje <- py_div 1000 m ;;
        Ok (set risk_scores account
              (mkRisk puntaje closest_account min_distance))
    | Infinity =>
        Ok (set risk_scores account (mkRisk 0 None Infinity))
    end.

Definition risk_scores1 (G : graph) (accounts high_risk : list node)
  : result (dict risk_entry) :=
  for_each (risk_step1 G high_risk) accounts [].

(** ** First script as a whole *)

Record report1 : Type := mkReport1 {
  r_path : list node;
  r_length : Q;
  r_total_amount : Q;
  r_risk_scores : dict risk_entry
}.

(** Lines 166-168: the conclusions read [path], [length] and
    [total_amount]; reading an unbound name is a [NameError]. *)
Definition conclusions (pv : path_vars) (risk_scores : dict risk_entry)
  : result report1 :=
  match v_path pv with
  | None => Raise NameError
  | Some path =>
      match v_length pv with
      | None => Raise NameError
      | Some length =>
          match v_total_amount pv with
          | None => Raise NameError
          | Some total_amount =>
              Ok (mkReport1 path length total_amount risk_scores)
          end
      end
  end.

(** The first script, from the construction of the graph to the conclusions.
    The betweenness ranking of lines 106-111 is left out: its result is only
    printed. *)
Definition script1 (accounts : list node) (transactions : list transaction)
    (source target : node) (high_risk : list node) : result report1 :=
  G <- build_graph1 accounts transactions ;;
  pv <- find_path G source target ;;
  risk_scores <- risk_scores1 G accounts high_risk ;;
  conclusions pv risk_scores.

(** ** Second script: risk distances and classification (lines 268-295) *)

(** Lines 273-281. *)
Definition min_step (G : graph) (account : node) (min_distance : xdist)
    (offshore : node) : result xdist :=
  match dijkstra_path_length G account offshore with
  | Ok distance =>
      if xltb (Finite distance) min_distance
      then Ok (Finite distance)
      else Ok min_distance
  | Raise NetworkXNoPath => Ok min_distance
  | Raise e => Raise e
  end.

(** Lines 271-282: body of the loop over [accounts]. *)
Definition risk_step2 (G : graph) (high_risk : list node)
    (risk_scores : dict xdist) (account : node) : result (dict xdist) :=
  min_distance <- for_each (min_step G account) high_risk Infinity ;;
  Ok (set risk_scores account min_distance).

Definition risk_scores2 (G : graph) (accounts high_risk : list node)
  : result (dict xdist) :=
  for_each (risk_step2 G high_risk) accounts [].

(** Line 293: [1 if risk_distance < threshold else 0]. *)
Definition classify (risk_distance : xdist) (threshold : Q) : Z :=
  if xltb risk_distance (Finite threshold) then 1%Z else 0%Z.

(** Lines 292-295. *)
Definition predict (risk_scores : dict xdist) (threshold : Q)
    (accounts : list node) : result (dict Z) :=
  for_each
    (fun predictions account =>
       match get risk_scores account with
       | Some d => Ok (set predictions account (classify d threshold))
       | None => Raise KeyError
       end)
    accounts [].

(** ** Second script: evaluation (lines 298-303) *)

(** [[d[k] for k in keys]]. *)
Fixpoint lookup_all {V : Type} (d : dict V) (keys : list node)
  : result (list V) :=
  match keys with
  | [] => Ok []
  | k :: keys' =>
      match get d k with
      | None => Raise KeyError
      | Some v => vs <- lookup_all d keys' ;; Ok (v :: vs)
      end
  end.

Fixpoint insert_label (x : Z) (l : list Z) : list Z :=
  match l with
  | [] => [x]
  | y :: l' =>
      match (x ?= y)%Z with
      | Lt => x :: l
      | Eq => l
      | Gt => y :: insert_label x l'
      end
  end.

(** [sklearn.utils.multiclass.unique_labels]: the labels that occur, sorted. *)
Definition unique_labels (y_true y_pred : list Z) : list Z :=
  fold_right insert_label [] (y_true ++ y_pred).

Definition count_pair (t p : Z) (pairs : list (Z * Z)) : nat :=
  List.length
    (filter (fun tp => Z.eqb (fst tp) t && Z.eqb (snd tp) p) pairs).

(** [sklearn.metrics.confusion_matrix(y_true, y_pred)]: row [i], column [j]
    counts the samples whose true label is the [i]-th label and whose
    predicted label is the [j]-th. *)
Definition confusion_matrix (y_true y_pred : list Z) : list (list nat) :=
  let labels := unique_labels y_true y_pred in
  let pairs := combine y_true y_pred in
  map (fun t => map (fun p => count_pair t p pairs) labels) labels.

Definition matrix_sum (m : list (list nat)) : nat :=
  list_sum (map list_sum m).

(** Lines 298-303. *)
Definition evaluate (accounts : list node) (ground_truth predictions : dict Z)
  : result (list (list nat)) :=
  y_true <- lookup_all ground_truth accounts ;;
  y_pred <- lookup_all predictions accounts ;;
  Ok (confusion_matrix y_true y_pred).

(** Lines 243-295: everything the second script computes before it reads
    [ground_truth]. *)
Definition scoring2 (accounts : list node) (transactions : list transaction)
    (high_risk : list node) (threshold : Q)
  : result (dict xdist * dict Z) :=
  G <- build_graph2 accounts transactions ;;
  risk_scores <- risk_scores2 G accounts high_risk ;;
  predictions <- predict risk_scores threshold accounts ;;
  Ok (risk_scores, predictions).

(** The second script: the scores and predictions, and the outcome of the
    evaluation that follows them. *)
Definition script2 (accounts : list node) (ground_truth : dict Z)
    (transactions : list transaction) (high_risk : list node) (threshold : Q)
  : result (dict xdist * dict Z * result (list (list nat))) :=
  sp <- scoring2 accounts transactions high_risk threshold ;;
  Ok (sp, evaluate accounts ground_truth (snd sp)).

(** ** Notions used in the statements *)

(** A transaction list the data model calls valid: every amount and every
    frequency is strictly positive. *)
Definition valid_transaction (t : transaction) : Prop :=
  let '(_, _, monto, frecuencia) := t in 0 < monto /\ 0 < frecuencia.

Definition valid_transactions (l : list transaction) : Prop :=
  Forall valid_transaction l.

(** [v -> u] is an edge of [G]. *)
Definition has_edge (G : graph) (v u : node) : Prop :=
  exists succ_v e, get G v = Some succ_v /\ In (u, e) succ_v.

(** There is a directed path from [s] to the node. *)
Inductive reachable (G : graph) (s : node) : node -> Prop :=
  | reach_refl : reachable G s s
  | reach_step : forall u w,
      reachable G s u -> has_edge G u w -> reachable G s w.

(** Every successor is a node of the graph. *)
Definition wf_graph (G : graph) : Prop :=
  forall v succ_v u e,
    get G v = Some succ_v -> In (u, e) succ_v -> mem G u = true.

Definition positive_weights (G : graph) : Prop :=
  forall v succ_v u e,
    get G v = Some succ_v -> In (u, e) succ_v -> 0 < weight_fn e.

(** The successors of [u], and the attributes of [u -> v], before an edge
    [u -> v] is stored: what [add_edge] starts from. *)
Definition succ_before (G : graph) (u : node) : dict attrs :=
  match get G u with
  | Some s => s
  | None => []
  end.

Definition attrs_before (G : graph) (u v : node) : attrs :=
  match get (succ_before G u) v with
  | Some d => d
  | None => no_attrs
  end.

(** What the shortest-path search reads of a graph: the nodes, their
    successors in order, and the weights. *)
Definition dmap {A B : Type} (f : A -> B) (d : dict A) : dict B :=
  map (fun kv => (fst kv, f (snd kv))) d.

Definition weighted (G : graph) : dict (dict Q) :=
  dmap (dmap weight_fn) G.

(** Edges leaving the nodes that have no final distance yet. *)
Fixpoint remaining (G : graph) (dist : dict Q) : nat :=
  match G with
  | [] => 0%nat
  | (v, succ_v) :: G' =>
      ((if mem dist v then 0 else List.length succ_v) + remaining G' dist)%nat
  end.

(** The distance of a heap entry. *)
Definition key (i : item) : Q := fst (fst i).

(** A distance [d] recorded for node [u] in a search from [s]. *)
Definition good (G : graph) (s : node) (d : Q) (u : node) : Prop :=
  reachable G s u /\ mem G u = true /\ 0 <= d /\ (u <> s -> 0 < d).

(** Invariant of the [while] loop of the search: every entry of the heap and
    every final distance is a good one, no final distance exceeds an entry
    of the heap, and [paths], when given, has a path for every node on the
    heap. *)
Definition loop_inv (G : graph) (s : node) (st : dstate) : Prop :=
  (forall p, paths st = Some p ->
     forall i, In i (fringe st) -> mem p (snd i) = true) /\
  (forall i, In i (fringe st) ->
     good G s (key i) (snd i) /\
     forall w x, get (dist st) w = Some x -> x <= key i) /\
  (forall w x, get (dist st) w = Some x -> good G s x w).

Definition FP (pairs : list (Z * Z)) : nat := count_pair 0 1 pairs.
Definition FN (pairs : list (Z * Z)) : nat := count_pair 1 0 pairs.

(** A graph on which the search is sure to succeed: the successors are
    nodes, the weights are positive, and the accounts are nodes. *)
Definition searchable (G : graph) (accounts : list node) : Prop :=
  wf_graph G /\ positive_weights G /\
  forall a, In a accounts -> mem G a = true.

Definition map_result {A B : Type} (f : A -> B) (r : result A) : result B :=
  match r with
  | Ok a => Ok (f a)
  | Raise e => Raise e
  end.

(** The minimum distance of lines 272-281 for one account. *)
Definition min_distance_of (G : graph) (high_risk : list node) (account : node)
  : result xdist :=
  for_each (min_step G account) high_risk Infinity.

(** The entry that lines 127-150 store for one account. *)
Definition risk_entry_of (G : graph) (high_risk : list node) (account : node)
  : result risk_entry :=
  st <- for_each (nearest_step G account) high_risk (Infinity, None) ;;
  match fst st with
  | Finite m =>
      puntaje <- py_div 1000 m ;; Ok (mkRisk puntaje (snd st) (fst st))
  | Infinity => Ok (mkRisk 0 None Infinity)
  end.

(** A minimum that the inner loop can hold on a searchable graph. *)
Definition settled (m : xdist) : Prop :=
  m = Infinity \/ m = Finite 0 \/ exists q, m = Finite q /\ 0 < q.

(** Invariant of the loop over the successors of [v], where [D] is [dist]
    once [v] has its final distance. *)
Definition relax_inv (G : graph) (s v : node) (D : dict Q) (st : dstate)
  : Prop :=
  dist st = D /\
  (forall i, In i (fringe st) ->
     good G s (key i) (snd i) /\
     forall w x, get D w = Some x -> x <= key i) /\
  (forall p, paths st = Some p ->
     mem p v = true /\
     forall i, In i (fringe st) -> mem p (snd i) = true).

(** ** Notions used for the further properties *)

(** [v -> u] is an edge of [G] with attributes [e]. *)
Definition edge (G : graph) (v u : node) (e : attrs) : Prop :=
  exists succ_v, get G v = Some succ_v /\ In (u, e) succ_v.

(** A walk from [s]: the nodes visited, in order, and the weights added up
    in the order the search adds them. *)
Inductive walk (G : graph) (s : node) : node -> list node -> Q -> Prop :=
  | walk_start : walk G s s [s] 0
  | walk_step : forall v u e p d,
      walk G s v p d -> edge G v u e ->
      walk G s u (p ++ [u]) (d + weight_fn e).

Definition nonneg_weights (G : graph) : Prop :=
  forall v u e, edge G v u e -> 0 <= weight_fn e.

(** The edge [-> u] with attributes [e], leaving a node of final distance
    [x], has been taken into account. *)
Definition covered (st : dstate) (x : Q) (u : node) (e : attrs) : Prop :=
  mem (dist st) u = true \/
  exists y, get (seen st) u = Some y /\ y <= x + weight_fn e.

(** Invariant of the search that gives the meaning of the distances.
    [pending] is the node whose successors are being visited, if any. *)
Definition search_inv (G : graph) (s : node) (pending : option node)
    (st : dstate) : Prop :=
  (forall u x, get (dist st) u = Some x ->
     (exists y, get (seen st) u = Some y /\ y == x) /\
     (forall p w, walk G s u p w -> x <= w)) /\
  (forall v x u e, get (dist st) v = Some x -> pending <> Some v ->
     edge G v u e -> covered st x u e) /\
  (forall u y, get (seen st) u = Some y -> mem (dist st) u = false ->
     exists c, In (y, c, u) (fringe st)) /\
  (forall i, In i (fringe st) ->
     exists y, get (seen st) (snd i) = Some y /\ y <= key i) /\
  (forall u y, get (seen st) u = Some y ->
     exists p w, walk G s u p w /\ w == y /\
                 forall P, paths st = Some P -> get P u = Some p) /\
  (exists y, get (seen st) s = Some y /\ y <= 0).

(** The state of the search without its [paths]. *)
Definition forget (st : dstate) : dstate :=
  mkState (dist st) (seen st) (fringe st) (counter st) None.

Definition keys {V : Type} (d : dict V) : list node := map fst d.


(** The amount and frequency of the last transaction from [u] to [v]. *)
Fixpoint last_for (u v : node) (txs : list transaction) : option (Q * Q) :=
  match txs with
  | [] => None
  | (u', v', m, f) :: rest =>
      match last_for u v rest with
      | Some r => Some r
      | None =>
          if String.eqb u' u && String.eqb v' v then Some (m, f) else None
      end
  end.

(** The attributes the first script stores for a transaction. *)
Definition attrs1 (mf : Q * Q) : attrs :=
  mkAttrs (Some (1000 / (fst mf * snd mf))) (Some (fst mf)) (Some (snd mf))
          (Some (fst mf * snd mf)).

(** The attributes the second script stores for a transaction. *)
Definition attrs2 (mf : Q * Q) : attrs :=
  mkAttrs (Some (1000 / (fst mf * snd mf))) None None
          (Some (fst mf * snd mf)).


(** The accounts named by a transaction list. *)
Definition endpoints (txs : list transaction) : list node :=
  flat_map (fun t => let '(u, v, _, _) := t in [u; v]) txs.

(** The graph of the sample data, as the first and as the second script
    build it. *)
Definition sample_graph : graph :=
  match build_graph1 accounts transactions with
  | Ok G => G
  | Raise _ => empty_graph
  end.

Definition sample_graph2 : graph :=
  match build_graph2 accounts transactions with
  | Ok G => G
  | Raise _ => empty_graph
  end.



(** A graph with nodes only. *)
Definition no_edges (G : graph) : Prop :=
  forall n succ_n, In (n, succ_n) G -> succ_n = [].

(** What the pair [(min_distance, closest_account)] means once the
    high-risk accounts [done] have been tried from [a]: nothing found yet,
    or the first account of [done] at the least distance. *)
Definition nearest_inv (G : graph) (a : node) (done : list node)
    (st : xdist * option node) : Prop :=
  match fst st with
  | Infinity =>
      snd st = None /\
      forall r d, In r done -> dijkstra_path_length G a r <> Ok d
  | Finite m =>
      exists r l1 l2,
        snd st = Some r /\ done = l1 ++ r :: l2 /\
        dijkstra_path_length G a r = Ok m /\
        (forall r' d', In r' l1 -> dijkstra_path_length G a r' = Ok d' ->
                       m < d') /\
        (forall r' d', In r' done -> dijkstra_path_length G a r' = Ok d' ->
                       m <= d')
  end.

(** The risk scores of the first script on the sample data. *)
Definition sample_risk_scores : dict risk_entry :=
  match risk_scores1 sample_graph accounts high_risk_accounts with
  | Ok rs => rs
  | Raise _ => []
  end.

(** ** Second script: the table of errors (lines 328-341) *)

(** A row of [results_df]. *)
Record result_row : Type := mkRow {
  Cuenta : node;
  Real : string;
  Prediccion : string;
  Distancia : xdist
}.

(** ["Fraude" if label == 1 else "Libre"]. *)
Definition label_name (l : Z) : string :=
  if Z.eqb l 1 then "Fraude" else "Libre".

(** Lines 328-333: the four columns are built one after the other, each by
    a lookup per account, and put side by side. *)
Definition results_df (accounts : list node) (ground_truth predictions : dict Z)
    (risk_scores : dict xdist) : result (list result_row) :=
  real <- lookup_all ground_truth accounts ;;
  pred <- lookup_all predictions accounts ;;
  dist <- lookup_all risk_scores accounts ;;
  Ok (map (fun x =>
             mkRow (fst x) (label_name (fst (snd x)))
                   (label_name (fst (snd (snd x)))) (snd (snd (snd x))))
          (combine accounts (combine real (combine pred dist)))).

(** Line 337: the rows with [Real == "Libre"] and [Prediccion == "Fraude"]. *)
Definition false_positives (df : list result_row) : list result_row :=
  filter (fun r => String.eqb (Real r) "Libre"
                   && String.eqb (Prediccion r) "Fraude") df.

(** Line 341: the rows with [Real == "Fraude"] and [Prediccion == "Libre"]. *)
Definition false_negatives (df : list result_row) : list result_row :=
  filter (fun r => String.eqb (Real r) "Fraude"
                   && String.eqb (Prediccion r) "Libre") df.

(** The ordered pair of accounts of a transaction. *)
Definition pair_of (t : transaction) : node * node :=
  let '(u, v, _, _) := t in (u, v).

(** * Properties *)

(** ** Dictionaries *)

Lemma get_set_same {V : Type} (d : dict V) k v : get (set d k v) k = Some v.
Proof.
  induction d as [|[k' v'] d IH]; simpl.
  - now rewrite String.eqb_refl.
  - destruct (String.eqb k' k) eqn:E; simpl.
    + now rewrite String.eqb_refl.
    + now rewrite E.
Qed.

Lemma get_set_other {V : Type} (d : dict V) k k' v :
  k <> k' -> get (set d k v) k' = get d k'.
Proof.
  intros Hne. induction d as [|[k0 v0] d IH]; simpl.
  - destruct (String.eqb_spec k k'); [contradiction | reflexivity].
  - destruct (String.eqb_spec k0 k) as [->|Hk]; simpl.
    + destruct (String.eqb_spec k k'); [contradiction | reflexivity].
    + destruct (String.eqb_spec k0 k'); [reflexivity | exact IH].
Qed.

Lemma get_set {V : Type} (d : dict V) k k' v :
  get (set d k v) k' = if String.eqb k k' then Some v else get d k'.
Proof.
  destruct (String.eqb_spec k k') as [->|Hne].
  - apply get_set_same.
  - now apply get_set_other.
Qed.

Lemma mem_set {V : Type} (d : dict V) k k' v :
  mem (set d k v) k' = String.eqb k k' || mem d k'.
Proof.
  unfold mem. rewrite get_set. now destruct (String.eqb k k').
Qed.

Lemma get_In {V : Type} (d : dict V) k v : get d k = Some v -> In (k, v) d.
Proof.
  induction d as [|[k' v'] d IH]; simpl; [discriminate|].
  destruct (String.eqb_spec k' k) as [->|Hne]; intros H.
  - injection H as ->. now left.
  - right. auto.
Qed.

Lemma In_set {V : Type} (d : dict V) k v k' v' :
  In (k', v') (set d k v) -> (k' = k /\ v' = v) \/ In (k', v') d.
Proof.
  induction d as [|[k0 v0] d IH]; simpl.
  - intros [H|[]]. injection H as <- <-. now left.
  - destruct (String.eqb k0 k); simpl.
    + intros [H|H]; [injection H as <- <-; now left | right; now right].
    + intros [H|H]; [right; now left|].
      destruct (IH H) as [?|?]; [now left | right; now right].
Qed.

Lemma length_set_le {V : Type} (d : dict V) k v :
  (List.length d <= List.length (set d k v))%nat.
Proof.
  induction d as [|[k0 v0] d IH]; simpl; [lia|].
  destruct (String.eqb k0 k); simpl; lia.
Qed.

Lemma mem_true_get {V : Type} (d : dict V) k :
  mem d k = true <-> exists v, get d k = Some v.
Proof.
  unfold mem. destruct (get d k); split; intros H; eauto; try discriminate.
  now destruct H.
Qed.

Lemma in_list_In k l : in_list k l = true <-> In k l.
Proof.
  unfold in_list. rewrite existsb_exists. split.
  - intros (x & Hx & E). apply String.eqb_eq in E. now subst.
  - intros H. exists k. split; [exact H | apply String.eqb_refl].
Qed.

(** ** Comparisons *)

Lemma Qltb_true a b : Qltb a b = true <-> a < b.
Proof.
  unfold Qltb. rewrite Qlt_alt. destruct (a ?= b); split; congruence.
Qed.

Lemma Qltb_false a b : Qltb a b = false <-> b <= a.
Proof.
  split; intros H.
  - apply Qnot_lt_le. intros Hlt. apply Qltb_true in Hlt. congruence.
  - destruct (Qltb a b) eqn:E; [|reflexivity].
    apply Qltb_true in E. apply Qle_not_lt in H. contradiction.
Qed.

Lemma xltb_true a b : xltb a b = true <-> xlt a b.
Proof.
  destruct a, b; simpl; try apply Qltb_true; split; auto; discriminate.
Qed.

(** ** Suspicion weighting *)

Lemma py_div_pos k x : 0 < k -> 0 < x -> py_div k x = Ok (k / x) /\ 0 < k / x.
Proof.
  intros Hk Hx. unfold py_div.
  destruct (Qeq_bool x 0) eqn:E.
  - apply Qeq_bool_iff in E. rewrite E in Hx. now apply Qlt_irrefl in Hx.
  - split; [reflexivity|].
    apply Qlt_shift_div_l; [exact Hx|]. now rewrite Qmult_0_l.
Qed.

Lemma suspicion_pos m f : 0 < m -> 0 < f -> 0 < suspicion m f.
Proof.
  intros Hm Hf. unfold suspicion.
  rewrite <- (Qmult_0_l f). apply Qmult_lt_compat_r; assumption.
Qed.

Lemma weighting_valid m f :
  0 < m -> 0 < f ->
  weighting m f = Ok (m * f, 1000 / (m * f)) /\ 0 < 1000 / (m * f).
Proof.
  intros Hm Hf. unfold weighting.
  destruct (py_div_pos K (suspicion m f)) as [E Hpos];
    [reflexivity | now apply suspicion_pos |].
  rewrite E. simpl. split; [reflexivity | exact Hpos].
Qed.



(** ** Classification *)

Lemma classify_fraud d t : classify d t = 1%Z <-> xlt d (Finite t).
Proof.
  unfold classify. rewrite <- xltb_true.
  destruct (xltb d (Finite t)); split; congruence.
Qed.

Lemma classify_clean d t : classify d t = 0%Z <-> ~ xlt d (Finite t).
Proof.
  unfold classify. rewrite <- xltb_true.
  destruct (xltb d (Finite t)); split; congruence.
Qed.

(** The dictionary built by [predict] maps every account to the
    classification of its stored distance. *)
Lemma predict_get rs t l :
  forall acc preds,
    for_each
      (fun predictions account =>
         match get rs account with
         | Some d => Ok (set predictions account (classify d t))
         | None => Raise KeyError
         end) l acc = Ok preds ->
    (forall a, In a l ->
       exists d, get rs a = Some d /\ get preds a = Some (classify d t)) /\
    (forall a, ~ In a l -> get preds a = get acc a).
Proof.
  induction l as [|x l IH]; simpl; intros acc preds H.
  - injection H as <-. split; [intros a []| reflexivity].
  - destruct (get rs x) as [d|] eqn:Ex; simpl in H; [|discriminate].
    destruct (IH _ _ H) as [IH1 IH2]. split.
    + intros a [<-|Ha].
      * destruct (in_dec string_dec x l) as [Hin|Hnin]; [now apply IH1|].
        exists d. split; [exact Ex|]. rewrite (IH2 _ Hnin). apply get_set_same.
      * now apply IH1.
    + intros a Ha. rewrite IH2 by tauto.
      apply get_set_other. tauto.
Qed.

(** C4.  The label is fraud ([1]) exactly when the risk distance is below
    the threshold and clean ([0]) otherwise, for every distance (infinite
    included) and every threshold; the default threshold is 0.05; and the
    predictions of the script are this function of the stored distance and
    of nothing else. *)
Theorem classify_iff_distance_below_threshold :
  (forall d t, (classify d t = 1%Z <-> xlt d (Finite t)) /\
               (classify d t = 0%Z <-> ~ xlt d (Finite t))) /\
  THRESHOLD == 5 / 100 /\
  (forall rs t accs preds a,
     predict rs t accs = Ok preds -> In a accs ->
     exists d, get rs a = Some d /\ get preds a = Some (classify d t)).
Proof.
  split; [|split].
  - intros d t. split; [apply classify_fraud | apply classify_clean].
  - reflexivity.
  - intros rs t accs preds a H Ha.
    destruct (predict_get rs t accs [] preds H) as [H1 _]. now apply H1.
Qed.

(** ** Adding a transaction *)

Lemma mem_add_node G n k : mem (add_node G n) k = String.eqb n k || mem G k.
Proof.
  unfold add_node. destruct (mem G n) eqn:E.
  - destruct (String.eqb_spec n k) as [<-|]; [now rewrite E | reflexivity].
  - apply mem_set.
Qed.

Lemma get_add_node_other G n k : n <> k -> get (add_node G n) k = get G k.
Proof.
  intros Hne. unfold add_node. destruct (mem G n); [reflexivity|].
  now apply get_set_other.
Qed.

Lemma get_add_node G n k :
  get (add_node G n) k =
  match get G k with
  | Some s => Some s
  | None => if String.eqb n k then Some [] else None
  end.
Proof.
  unfold add_node. destruct (mem G n) eqn:E.
  - destruct (String.eqb_spec n k) as [<-|Hne].
    + unfold mem in E. now destruct (get G n).
    + now destruct (get G k).
  - rewrite get_set. destruct (String.eqb_spec n k) as [<-|Hne].
    + unfold mem in E. now destruct (get G n).
    + now destruct (get G k).
Qed.

Lemma add_edge_unfold G u v a :
  add_edge G u v a =
  set (add_node (add_node G u) v) u
      (set (succ_before G u) v (update_attrs (attrs_before G u v) a)).
Proof.
  unfold add_edge, attrs_before, succ_before.
  rewrite !get_add_node.
  destruct (get G u) as [s|] eqn:E; [reflexivity|].
  rewrite String.eqb_refl. now destruct (String.eqb v u).
Qed.

Lemma get_edge_data_add_edge G u v a :
  get_edge_data (add_edge G u v a) u v =
  Some (update_attrs (attrs_before G u v) a).
Proof.
  rewrite add_edge_unfold. unfold get_edge_data.
  rewrite get_set_same. apply get_set_same.
Qed.



(** ** The sample run of the first script *)

(** C1.  On the sample data the search from [Cuenta_A] to [Offshore_X]
    returns the route through [Cuenta_B] and [Cuenta_C]; the three edges
    carry the weights [1000 / (amount * frequency)]; the length reported is
    their sum, which is below the weight of the route through [Cuenta_D],
    [Cuenta_E] and [Cuenta_F]; and the total amount is 135000. *)
Theorem sample_most_suspicious_path :
  exists G r,
    build_graph1 accounts transactions = Ok G /\
    dijkstra_path G "Cuenta_A" "Offshore_X"
      = Ok ["Cuenta_A"; "Cuenta_B"; "Cuenta_C"; "Offshore_X"] /\
    option_map weight_fn (get_edge_data G "Cuenta_A" "Cuenta_B")
      = Some (1000 / (50000 * 5)) /\
    option_map weight_fn (get_edge_data G "Cuenta_B" "Cuenta_C")
      = Some (1000 / (45000 * 4)) /\
    option_map weight_fn (get_edge_data G "Cuenta_C" "Offshore_X")
      = Some (1000 / (40000 * 3)) /\
    dijkstra_path_length G "Cuenta_A" "Offshore_X" = Ok (r_length r) /\
    script1 accounts transactions "Cuenta_A" "Offshore_X" high_risk_accounts
      = Ok r /\
    r_path r = ["Cuenta_A"; "Cuenta_B"; "Cuenta_C"; "Offshore_X"] /\
    r_length r
      == 1000 / (50000 * 5) + 1000 / (45000 * 4) + 1000 / (40000 * 3) /\
    r_length r
      < 1000 / (10000 * 1) + 1000 / (9000 * 1) + 1000 / (8000 * 1)
        + 1000 / (7000 * 1) /\
    r_total_amount r == 135000.
Proof.
  eexists. eexists.
  split; [vm_compute; reflexivity|].
  split; [vm_compute; reflexivity|].
  split; [vm_compute; reflexivity|].
  split; [vm_compute; reflexivity|].
  split; [vm_compute; reflexivity|].
  split; [|split; [vm_compute; reflexivity|]];
    repeat split; vm_compute; reflexivity.
Qed.

(** C6 fails on the code.  Without a route from [Cuenta_A] to [Offshore_X]
    the handler of the [try] block is taken and leaves [path], [length] and
    [total_amount] unbound; the risk scores are still computed, and the
    conclusions then stop the script with a [NameError]. *)
Theorem missing_route_stops_the_conclusions :
  exists G,
    build_graph1 accounts transactions_without_route = Ok G /\
    dijkstra_path G "Cuenta_A" "Offshore_X" = Raise NetworkXNoPath /\
    find_path G "Cuenta_A" "Offshore_X" = Ok (mkPathVars None None None) /\
    (exists rs, risk_scores1 G accounts high_risk_accounts = Ok rs) /\
    script1 accounts transactions_without_route "Cuenta_A" "Offshore_X"
            high_risk_accounts = Raise NameError.
Proof.
  eexists.
  split; [vm_compute; reflexivity|].
  split; [vm_compute; reflexivity|].
  split; [vm_compute; reflexivity|].
  split; [vm_compute; eexists; reflexivity|].
  vm_compute; reflexivity.
Qed.

(** ** The heap *)

Lemma item_ltb_true_key x y : item_ltb x y = true -> key x <= key y.
Proof.
  destruct x as [[d1 c1] u1], y as [[d2 c2] u2]. unfold item_ltb, key. simpl.
  destruct (d1 ?= d2) eqn:E; intros H; try discriminate.
  - apply Qeq_alt in E. rewrite E. apply Qle_refl.
  - apply Qlt_alt in E. now apply Qlt_le_weak.
Qed.

Lemma item_ltb_false_key x y : item_ltb x y = false -> key y <= key x.
Proof.
  destruct x as [[d1 c1] u1], y as [[d2 c2] u2]. unfold item_ltb, key. simpl.
  destruct (d1 ?= d2) eqn:E; intros H; try discriminate.
  - apply Qeq_alt in E. rewrite E. apply Qle_refl.
  - apply Qgt_alt in E. now apply Qlt_le_weak.
Qed.

(** [pop_min] removes one entry, of least distance. *)
Lemma pop_min_spec l :
  forall x m r,
    pop_min x l = (m, r) ->
    List.length r = List.length l /\
    (forall z, In z (x :: l) <-> z = m \/ In z r) /\
    (forall z, In z r -> key m <= key z).
Proof.
  induction l as [|y l IH]; intros x m r H; simpl in H.
  - injection H as <- <-. split; [reflexivity|].
    split; [intros z; simpl; intuition auto | intros z []].
  - destruct (pop_min y l) as [m' r'] eqn:E.
    destruct (IH _ _ _ E) as (Hlen & Hin & Hmin).
    destruct (item_ltb m' x) eqn:Elt; injection H as <- <-.
    + repeat split.
      * simpl. now rewrite Hlen.
      * intros [<-|Hz]; [right; now left|].
        apply Hin in Hz. destruct Hz as [->|Hz]; [now left | right; now right].
      * intros [->|[<-|Hz]]; [right; apply Hin; now left | now left |].
        right. apply Hin. now right.
      * intros z [<-|Hz]; [now apply item_ltb_true_key | now apply Hmin].
    + repeat split.
      * intros [<-|Hz]; [now left | right; exact Hz].
      * intros [->|Hz]; [now left | right; exact Hz].
      * intros z Hz. apply Hin in Hz.
        apply item_ltb_false_key in Elt.
        destruct Hz as [->|Hz]; [exact Elt|].
        apply Qle_trans with (key m'); [exact Elt | now apply Hmin].
Qed.

(** ** The measure of the loop *)

Lemma remaining_nil G : remaining G [] = number_of_edges G.
Proof.
  induction G as [|[v s] G IH]; simpl; [reflexivity | now rewrite IH].
Qed.

Lemma remaining_set_le G dist v d :
  (remaining G (set dist v d) <= remaining G dist)%nat.
Proof.
  induction G as [|[k s] G IH]; simpl; [lia|].
  rewrite mem_set. destruct (String.eqb v k); simpl; [lia|].
  destruct (mem dist k); lia.
Qed.

Lemma remaining_set G dist v d succ_v :
  mem dist v = false -> get G v = Some succ_v ->
  (remaining G (set dist v d) + List.length succ_v <= remaining G dist)%nat.
Proof.
  intros Hv. induction G as [|[k s] G IH]; simpl; [discriminate|].
  rewrite mem_set.
  destruct (String.eqb_spec k v) as [->|Hne]; intros H.
  - injection H as ->. rewrite String.eqb_refl, Hv. simpl.
    pose proof (remaining_set_le G dist v d). lia.
  - specialize (IH H).
    destruct (String.eqb_spec v k) as [->|_]; [contradiction|]. simpl.
    destruct (mem dist k); lia.
Qed.

(** ** The search: no error, termination, and what a distance means *)

Section Search.

Variable G : graph.
Variable s : node.
Hypothesis G_wf : wf_graph G.
Hypothesis G_pos : positive_weights G.

Section Relax.

Variables (v : node) (d : Q) (succ_v : dict attrs) (D : dict Q).
Hypothesis v_reach : reachable G s v.
Hypothesis d_nonneg : 0 <= d.
Hypothesis v_succ : get G v = Some succ_v.
Hypothesis D_below : forall w x, get D w = Some x -> x <= d.


Lemma relax_ok st u e :
  In (u, e) succ_v -> relax_inv G s v D st ->
  exists st',
    relax v d st (u, e) = Ok st' /\ relax_inv G s v D st' /\
    (List.length (fringe st') <= S (List.length (fringe st)))%nat.
Proof.
  intros Hin (HD & Hfr & Hp).
  pose proof (G_pos _ _ _ _ v_succ Hin) as Hcost.
  unfold relax. rewrite HD.
  destruct (get D u) as [u_dist|] eqn:Eu.
  - assert (Hf : Qltb (d + weight_fn e) u_dist = false).
    { apply Qltb_false. pose proof (D_below _ _ Eu). lra. }
    rewrite Hf. exists st. split; [reflexivity|].
    split; [exact (conj HD (conj Hfr Hp)) | lia].
  - destruct (match get (seen st) u with
              | Some seen_u => Qltb (d + weight_fn e) seen_u
              | None => true
              end).
    2:{ exists st. split; [reflexivity|].
        split; [exact (conj HD (conj Hfr Hp)) | lia]. }
    assert (Hnew : good G s (d + weight_fn e) u /\
                   forall w x, get D w = Some x -> x <= d + weight_fn e).
    { split.
      - split; [|split; [|split]].
        + apply reach_step with v; [exact v_reach|].
          exists succ_v, e. now split.
        + exact (G_wf _ _ _ _ v_succ Hin).
        + lra.
        + intros _. lra.
      - intros w x Hw. pose proof (D_below _ _ Hw). lra. }
    destruct (paths st) as [p|] eqn:Ep.
    + destruct (Hp p eq_refl) as [Hpv Hpf].
      destruct (proj1 (mem_true_get p v) Hpv) as [pv Epv].
      rewrite Epv. simpl. eexists. split; [reflexivity|].
      split; [|simpl; lia].
      split; [reflexivity|]. split.
      * simpl. intros i [<-|Hi]; [exact Hnew | now apply Hfr].
      * simpl. intros p' Hp'. injection Hp' as <-.
        split.
        -- rewrite mem_set, Hpv. apply orb_true_r.
        -- intros i [<-|Hi]; rewrite mem_set; simpl.
           ++ now rewrite String.eqb_refl.
           ++ rewrite (Hpf i Hi). apply orb_true_r.
    + simpl. eexists. split; [reflexivity|].
      split; [|simpl; lia].
      split; [reflexivity|]. split.
      * simpl. intros i [<-|Hi]; [exact Hnew | now apply Hfr].
      * simpl. intros p' Hp'. discriminate.
Qed.

Lemma for_each_relax_ok l :
  (forall ue, In ue l -> In ue succ_v) ->
  forall st, relax_inv G s v D st ->
  exists st',
    for_each (relax v d) l st = Ok st' /\ relax_inv G s v D st' /\
    (List.length (fringe st')
     <= List.length l + List.length (fringe st))%nat.
Proof.
  induction l as [|[u e] l IH]; intros Hsub st Hst; cbn [for_each].
  - exists st. split; [reflexivity|]. split; [exact Hst | simpl; lia].
  - destruct (relax_ok st u e) as (st1 & E1 & H1 & L1);
      [apply Hsub; now left | exact Hst |].
    rewrite E1. cbn [bind].
    destruct (IH (fun ue H => Hsub ue (or_intror H)) st1 H1)
      as (st2 & E2 & H2 & L2).
    exists st2. split; [exact E2|]. split; [exact H2 | simpl; lia].
Qed.

End Relax.

(** The loop ends within its bound, raises nothing, and every distance it
    returns is good. *)
Lemma loop_total target :
  forall fuel st,
    loop_inv G s st ->
    (List.length (fringe st) + remaining G (dist st) < fuel)%nat ->
    exists st',
      dijkstra_loop G target fuel st = Ok st' /\
      forall w x, get (dist st') w = Some x -> good G s x w.
Proof.
  induction fuel as [|fuel IH]; intros st (Hp & Hfr & Hd) Hm; [lia|].
  simpl. destruct (fringe st) as [|x l] eqn:Ef; simpl.
  - exists st. split; [reflexivity | exact Hd].
  - destruct (pop_min x l) as [[[d c] v] rest] eqn:Epop.
    destruct (pop_min_spec _ _ _ _ Epop) as (Hlen & Hin & Hmin).
    assert (Hm_in : In (d, c, v) (x :: l)) by (apply Hin; now left).
    assert (Hrest : forall i, In i rest -> In i (x :: l))
      by (intros i Hi; apply Hin; now right).
    destruct (Hfr _ Hm_in) as [Hgood Hbelow].
    unfold key in Hgood, Hbelow; simpl in Hgood, Hbelow.
    simpl in Hm.
    destruct (mem (dist st) v) eqn:Ev.
    + apply IH.
      * split; [|split]; simpl.
        -- intros p E i Hi. apply (Hp p E). auto.
        -- intros i Hi. apply Hfr. auto.
        -- exact Hd.
      * simpl. lia.
    + destruct (String.eqb v target).
      * eexists. split; [reflexivity|]. simpl. intros w y.
        rewrite get_set. destruct (String.eqb_spec v w) as [<-|_].
        -- intros E. injection E as <-. exact Hgood.
        -- apply Hd.
      * destruct Hgood as (Hreach & Hmem & Hnn & Hpos).
        apply mem_true_get in Hmem. destruct Hmem as [succ_v Esucc].
        rewrite Esucc.
        assert (HD : forall w y, get (set (dist st) v d) w = Some y -> y <= d).
        { intros w y. rewrite get_set.
          destruct (String.eqb v w); [|apply Hbelow].
          intros E. injection E as <-. apply Qle_refl. }
        destruct (for_each_relax_ok v d succ_v (set (dist st) v d)
                    Hreach Hnn Esucc HD succ_v (fun ue H => H)
                    (mkState (set (dist st) v d) (seen st) rest
                             (counter st) (paths st)))
          as (st2 & E2 & (HD2 & Hfr2 & Hp2) & L2).
        { split; [reflexivity|]. split; simpl.
          - intros i Hi. split; [apply Hfr; auto|].
            intros w y. rewrite get_set.
            destruct (String.eqb v w).
            + intros E. injection E as <-.
              apply (Hmin i Hi).
            + apply (proj2 (Hfr i (Hrest i Hi))).
          - intros p E. split.
            + apply (Hp p E (d, c, v) Hm_in).
            + intros i Hi. apply (Hp p E). auto. }
        rewrite E2. simpl. apply IH.
        -- split; [|split].
           ++ intros p E. apply (Hp2 p E).
           ++ rewrite HD2. exact Hfr2.
           ++ rewrite HD2. intros w y. rewrite get_set.
              destruct (String.eqb_spec v w) as [<-|_]; [|apply Hd].
              intros E. injection E as <-. repeat split; auto.
              apply mem_true_get. eauto.
        -- rewrite HD2. simpl in L2.
           pose proof (remaining_set G (dist st) v d succ_v Ev Esucc). lia.
Qed.

Lemma dijkstra_multisource_total target paths0 :
  mem G s = true ->
  (forall p, paths0 = Some p -> mem p s = true) ->
  exists st,
    dijkstra_multisource G s target paths0 = Ok st /\
    forall w x, get (dist st) w = Some x -> good G s x w.
Proof.
  intros Hs Hp. unfold dijkstra_multisource. apply loop_total.
  - split; [|split]; simpl.
    + intros p E i [<-|[]]. simpl. now apply Hp.
    + intros i [<-|[]]. unfold key. simpl. split; [|discriminate].
      repeat split; [constructor | exact Hs | apply Qle_refl |].
      intros H. now contradiction H.
    + discriminate.
  - simpl. rewrite remaining_nil. unfold loop_bound. lia.
Qed.

(** The length of a shortest path to another node: either a strictly
    positive distance to a node that can be reached, or "no path". *)
Lemma dijkstra_path_length_cases t :
  mem G s = true -> s <> t ->
  (exists d, dijkstra_path_length G s t = Ok d /\ 0 < d /\ reachable G s t)
  \/ dijkstra_path_length G s t = Raise NetworkXNoPath.
Proof.
  intros Hs Hne. unfold dijkstra_path_length. rewrite Hs. simpl.
  destruct (String.eqb_spec s t) as [|_]; [contradiction|].
  destruct (dijkstra_multisource_total t None Hs) as (st & E & Hd);
    [discriminate|].
  rewrite E. simpl.
  destruct (get (dist st) t) as [d|] eqn:Et; [left | now right].
  destruct (Hd _ _ Et) as (Hr & _ & _ & Hpos).
  exists d. repeat split; auto.
Qed.

Lemma dijkstra_path_length_no_path t :
  mem G s = true -> ~ reachable G s t ->
  dijkstra_path_length G s t = Raise NetworkXNoPath.
Proof.
  intros Hs Hnr.
  assert (Hne : s <> t) by (intros ->; apply Hnr; constructor).
  destruct (dijkstra_path_length_cases t Hs Hne) as [(d & _ & _ & Hr)|E];
    [contradiction | exact E].
Qed.

End Search.

(** ** The graph built from valid transactions *)

Lemma mem_add_edge G u v a k :
  mem (add_edge G u v a) k = String.eqb u k || String.eqb v k || mem G k.
Proof.
  rewrite add_edge_unfold, mem_set, !mem_add_node.
  destruct (String.eqb u k), (String.eqb v k); reflexivity.
Qed.

(** The edges after [add_edge]: the new one, or one that was there. *)
Lemma add_edge_edges G u v a k succ_k w e :
  get (add_edge G u v a) k = Some succ_k -> In (w, e) succ_k ->
  (k = u /\ w = v /\ e = update_attrs (attrs_before G u v) a) \/
  (exists s, get G k = Some s /\ In (w, e) s).
Proof.
  rewrite add_edge_unfold, get_set.
  destruct (String.eqb_spec u k) as [<-|Hne].
  - intros H Hin. injection H as <-.
    apply In_set in Hin. destruct Hin as [[-> ->]|Hin]; [now left|].
    right. unfold succ_before in Hin.
    destruct (get G u) as [s|]; [eauto | contradiction].
  - rewrite !get_add_node. intros H Hin. right.
    destruct (get G k) as [s|].
    + injection H as <-. eauto.
    + destruct (String.eqb u k), (String.eqb v k);
        try discriminate; injection H as <-; contradiction.
Qed.

Lemma weight_update_attrs old a w :
  a_weight a = Some w -> weight_fn (update_attrs old a) = w.
Proof. intros H. unfold weight_fn, update_attrs. simpl. now rewrite H. Qed.

Lemma add_edge_preserves G u v a w :
  a_weight a = Some w -> 0 < w ->
  wf_graph G -> positive_weights G ->
  wf_graph (add_edge G u v a) /\ positive_weights (add_edge G u v a).
Proof.
  intros Ha Hw Hwf Hpos. split.
  - intros k succ_k x e Hk Hin. rewrite mem_add_edge.
    destruct (add_edge_edges _ _ _ _ _ _ _ _ Hk Hin)
      as [(_ & -> & _)|(s & Hs & Hin')].
    + rewrite String.eqb_refl. apply orb_true_iff. left. apply orb_true_r.
    + rewrite (Hwf _ _ _ _ Hs Hin'). apply orb_true_r.
  - intros k succ_k x e Hk Hin.
    destruct (add_edge_edges _ _ _ _ _ _ _ _ Hk Hin)
      as [(_ & _ & ->)|(s & Hs & Hin')].
    + now rewrite (weight_update_attrs _ _ _ Ha).
    + exact (Hpos _ _ _ _ Hs Hin').
Qed.

Lemma add_node_preserves G n :
  wf_graph G -> positive_weights G ->
  wf_graph (add_node G n) /\ positive_weights (add_node G n).
Proof.
  intros Hwf Hpos. split; intros k succ_k x e; rewrite get_add_node;
    destruct (get G k) as [s|] eqn:Ek.
  - intros H Hin. injection H as <-. rewrite mem_add_node.
    rewrite (Hwf _ _ _ _ Ek Hin). apply orb_true_r.
  - destruct (String.eqb n k); [|discriminate].
    intros H. injection H as <-. contradiction.
  - intros H Hin. injection H as <-. exact (Hpos _ _ _ _ Ek Hin).
  - destruct (String.eqb n k); [|discriminate].
    intros H. injection H as <-. contradiction.
Qed.

Lemma add_nodes_preserve l :
  forall G,
    wf_graph G -> positive_weights G ->
    wf_graph (fold_left add_node l G) /\
    positive_weights (fold_left add_node l G) /\
    (forall a, In a l \/ mem G a = true ->
               mem (fold_left add_node l G) a = true).
Proof.
  induction l as [|x l IH]; intros G Hwf Hpos; simpl.
  - repeat split; auto. intros a [[]|H]; exact H.
  - destruct (add_node_preserves G x Hwf Hpos) as [Hwf' Hpos'].
    destruct (IH _ Hwf' Hpos') as (H1 & H2 & H3).
    repeat split; auto.
    intros a Ha. apply H3. rewrite mem_add_node.
    destruct Ha as [[->|Ha]|Ha].
    + right. now rewrite String.eqb_refl.
    + now left.
    + right. rewrite Ha. apply orb_true_r.
Qed.

Lemma add_transactions_preserve
    (add : graph -> transaction -> result graph) :
  (forall G t, exists a,
      let '(u, v, m, f) := t in
      0 < m -> 0 < f ->
      add G t = Ok (add_edge G u v a) /\ a_weight a = Some (1000 / (m * f))) ->
  forall l G accs,
    valid_transactions l -> searchable G accs ->
    exists G', for_each add l G = Ok G' /\ searchable G' accs.
Proof.
  intros Hadd. induction l as [|t l IH]; intros G accs Hv HG; simpl.
  - eauto.
  - inversion Hv as [|? ? Ht Hl]; subst.
    destruct (Hadd G t) as [a Ha].
    destruct t as [[[u v] m] f]. destruct Ht as [Hm Hf].
    destruct (Ha Hm Hf) as [E Hw]. rewrite E. simpl.
    apply IH; [exact Hl|].
    destruct HG as (Hwf & Hpos & Hacc).
    destruct (weighting_valid m f Hm Hf) as [_ Hwpos].
    destruct (add_edge_preserves G u v a _ Hw Hwpos Hwf Hpos) as [H1 H2].
    repeat split; auto.
    intros x Hx. rewrite mem_add_edge, (Hacc x Hx). apply orb_true_r.
Qed.

Lemma empty_graph_searchable accs :
  searchable (fold_left add_node accs empty_graph) accs.
Proof.
  destruct (add_nodes_preserve accs empty_graph) as (H1 & H2 & H3).
  - intros v s u e H. discriminate.
  - intros v s u e H. discriminate.
  - repeat split; auto.
Qed.

Lemma build_graph1_searchable accs l :
  valid_transactions l ->
  exists G, build_graph1 accs l = Ok G /\ searchable G accs.
Proof.
  intros Hv. unfold build_graph1.
  apply add_transactions_preserve;
    [|exact Hv | apply empty_graph_searchable].
  intros G [[[u v] m] f].
  exists (mkAttrs (Some (1000 / (m * f))) (Some m) (Some f) (Some (m * f))).
  intros Hm Hf. unfold add_transaction1.
  destruct (weighting_valid m f Hm Hf) as [-> _]. simpl. now split.
Qed.

Lemma build_graph2_searchable accs l :
  valid_transactions l ->
  exists G, build_graph2 accs l = Ok G /\ searchable G accs.
Proof.
  intros Hv. unfold build_graph2.
  apply add_transactions_preserve;
    [|exact Hv | apply empty_graph_searchable].
  intros G [[[u v] m] f].
  exists (mkAttrs (Some (1000 / (m * f))) None None (Some (m * f))).
  intros Hm Hf. unfold add_transaction2.
  destruct (weighting_valid m f Hm Hf) as [-> _]. simpl. now split.
Qed.

(** ** Loops that fill a dictionary *)

Section Keyed.

Context {V : Type}.
Variable skip : node -> bool.
Variable f : node -> result V.
Variable body : dict V -> node -> result (dict V).
Hypothesis body_eq :
  forall d a,
    body d a = if skip a then Ok d else v <- f a ;; Ok (set d a v).

Lemma keyed_total l :
  (forall a, In a l -> skip a = false -> exists v, f a = Ok v) ->
  forall acc, exists d, for_each body l acc = Ok d.
Proof.
  induction l as [|x l IH]; intros Hf acc; simpl; [eauto|].
  rewrite body_eq. destruct (skip x) eqn:Ex; simpl.
  - apply IH. intros a Ha. apply Hf. now right.
  - destruct (Hf x (or_introl eq_refl) Ex) as [v ->]. simpl.
    apply IH. intros a Ha. apply Hf. now right.
Qed.

Lemma keyed_get l :
  forall acc d,
    for_each body l acc = Ok d ->
    forall a,
      (In a l -> skip a = false ->
         exists v, f a = Ok v /\ get d a = Some v) /\
      (~ In a l \/ skip a = true -> get d a = get acc a).
Proof.
  induction l as [|x l IH]; intros acc d H a; simpl in H.
  - injection H as <-. split; [intros [] | reflexivity].
  - rewrite body_eq in H. destruct (skip x) eqn:Ex; simpl in H.
    + destruct (IH _ _ H a) as [IH1 IH2]. split.
      * intros [<-|Ha] Hs; [congruence | now apply IH1].
      * intros Ha. apply IH2. simpl in Ha. tauto.
    + destruct (f x) as [v|e] eqn:Efx; simpl in H; [|discriminate].
      destruct (IH _ _ H a) as [IH1 IH2]. split.
      * intros [<-|Ha] Hs; [|now apply IH1].
        destruct (in_dec string_dec x l) as [Hin|Hnin]; [now apply IH1|].
        exists v. split; [exact Efx|].
        rewrite IH2 by now left. apply get_set_same.
      * intros Ha.
        assert (Hne : x <> a).
        { intros <-. destruct Ha as [Ha|Ha]; [apply Ha; now left|congruence]. }
        rewrite IH2 by (simpl in Ha; tauto).
        now apply get_set_other.
Qed.

End Keyed.

(** ** Risk distances *)

Lemma risk_step1_eq G hr rs a :
  risk_step1 G hr rs a =
  if in_list a hr then Ok rs
  else e <- risk_entry_of G hr a ;; Ok (set rs a e).
Proof.
  unfold risk_step1, risk_entry_of. destruct (in_list a hr); [reflexivity|].
  destruct (for_each (nearest_step G a) hr (Infinity, None)) as [[m c]|e];
    simpl; [|reflexivity].
  destruct m as [m|]; simpl; [|reflexivity].
  now destruct (py_div 1000 m).
Qed.

Lemma risk_step2_eq G hr rs a :
  risk_step2 G hr rs a =
  if false then Ok rs
  else m <- min_distance_of G hr a ;; Ok (set rs a m).
Proof. reflexivity. Qed.

(** The first script keeps, next to the minimum, the account that gave it;
    the minimum itself is the one the second script computes. *)
Lemma nearest_min G1 G2 a :
  (forall r, dijkstra_path_length G1 a r = dijkstra_path_length G2 a r) ->
  forall l st,
    map_result fst (for_each (nearest_step G1 a) l st)
    = for_each (min_step G2 a) l (fst st).
Proof.
  intros Hd. induction l as [|r l IH]; intros st; cbn [for_each];
    [reflexivity|].
  unfold nearest_step at 1. unfold min_step at 1. rewrite Hd.
  destruct (dijkstra_path_length G2 a r) as [d|e]; cbn [bind].
  - destruct (xltb (Finite d) (fst st)); cbn [bind]; apply IH.
  - destruct e; cbn [bind map_result]; try reflexivity; apply IH.
Qed.

Lemma risk_entry_distance G1 G2 hr a e :
  (forall r, dijkstra_path_length G1 a r = dijkstra_path_length G2 a r) ->
  risk_entry_of G1 hr a = Ok e ->
  min_distance_of G2 hr a = Ok (distancia e).
Proof.
  intros Hd. unfold risk_entry_of, min_distance_of.
  pose proof (nearest_min G1 G2 a Hd hr (Infinity, None)) as Hm.
  cbn [fst] in Hm. rewrite <- Hm. clear Hm.
  destruct (for_each (nearest_step G1 a) hr (Infinity, None)) as [[m c]|];
    simpl; [|discriminate].
  destruct m as [m|]; simpl.
  - destruct (py_div 1000 m); simpl; [|discriminate].
    intros H. now injection H as <-.
  - intros H. now injection H as <-.
Qed.

Section MinLoop.

Variable G : graph.
Variable a : node.
Hypothesis G_wf : wf_graph G.
Hypothesis G_pos : positive_weights G.
Hypothesis a_node : mem G a = true.

Lemma path_length_self : dijkstra_path_length G a a = Ok 0.
Proof.
  unfold dijkstra_path_length. rewrite a_node. simpl.
  now rewrite String.eqb_refl.
Qed.

Lemma min_step_ok st r :
  settled st ->
  exists st',
    min_step G a st r = Ok st' /\ settled st' /\
    (st = Finite 0 -> st' = Finite 0) /\
    (r = a -> st' = Finite 0) /\
    (~ reachable G a r -> st' = st) /\
    (r <> a -> st <> Finite 0 -> st' <> Finite 0).
Proof.
  intros Hst. unfold min_step.
  destruct (string_dec r a) as [->|Hne].
  - rewrite path_length_self.
    assert (Hself : forall x : xdist, ~ reachable G a a -> Finite 0 = x)
      by (intros x H; exfalso; apply H; constructor).
    destruct Hst as [->|[->|(q & -> & Hq)]]; simpl.
    + exists (Finite 0). unfold settled. repeat split; auto; tauto.
    + exists (Finite 0). unfold settled. repeat split; auto; tauto.
    + apply Qltb_true in Hq. rewrite Hq.
      exists (Finite 0). unfold settled. repeat split; auto; tauto.
  - destruct (dijkstra_path_length_cases G a G_wf G_pos r a_node)
      as [(d & -> & Hd & Hr)| ->]; [congruence | |].
    + assert (Hd' : settled (Finite d)) by (right; right; eauto).
      assert (Hnz : Finite d <> Finite 0).
      { intros E. injection E as ->. now apply Qlt_irrefl in Hd. }
      destruct Hst as [->|[->|(q & -> & Hq)]]; simpl.
      * exists (Finite d).
        repeat split; auto; try congruence; try tauto.
      * assert (E : Qltb d 0 = false)
          by (apply Qltb_false; now apply Qlt_le_weak).
        rewrite E. exists (Finite 0). unfold settled.
        repeat split; auto; try congruence; try tauto.
      * assert (Hq' : settled (Finite q)) by (right; right; eauto).
        assert (Hqz : Finite q <> Finite 0).
        { intros E. injection E as ->. now apply Qlt_irrefl in Hq. }
        destruct (Qltb d q).
        -- exists (Finite d).
           repeat split; auto; try congruence; try tauto.
        -- exists (Finite q).
           repeat split; auto; try congruence; try tauto.
    + exists st. repeat split; auto; try congruence; try tauto.
Qed.

Lemma min_loop_ok l :
  forall st,
    settled st ->
    exists st',
      for_each (min_step G a) l st = Ok st' /\ settled st' /\
      (st = Finite 0 -> st' = Finite 0) /\
      (In a l -> st' = Finite 0) /\
      ((forall r, In r l -> ~ reachable G a r) -> st' = st) /\
      (~ In a l -> st <> Finite 0 -> st' <> Finite 0).
Proof.
  induction l as [|r l IH]; intros st Hst; simpl.
  - exists st. repeat split; auto; try tauto.
  - destruct (min_step_ok st r Hst) as (st1 & -> & H1 & Hz1 & Ha1 & Hn1 & Hp1).
    simpl.
    destruct (IH st1 H1) as (st2 & E2 & H2 & Hz2 & Ha2 & Hn2 & Hp2).
    exists st2. split; [exact E2|]. split; [exact H2|].
    split; [auto|]. split; [|split].
    + intros [->|Hin]; auto.
    + intros Hnr. rewrite Hn2 by (intros x Hx; apply Hnr; now right).
      apply Hn1. apply Hnr. now left.
    + intros Hnin Hnz. apply Hp2; [tauto|].
      apply Hp1; [|exact Hnz]. intros ->. apply Hnin. now left.
Qed.

(** The minimum distance of an account: zero for a high-risk account,
    strictly positive or infinite for any other, infinite when no
    high-risk account can be reached. *)
Lemma min_distance_of_ok hr :
  exists m,
    min_distance_of G hr a = Ok m /\ settled m /\
    (In a hr -> m = Finite 0) /\
    (~ In a hr -> m <> Finite 0) /\
    ((forall r, In r hr -> ~ reachable G a r) -> m = Infinity).
Proof.
  destruct (min_loop_ok hr Infinity) as (m & E & H1 & _ & H2 & H3 & H4);
    [now left|].
  exists m. repeat split; auto. intros Hn. apply H4; [exact Hn | discriminate].
Qed.


End MinLoop.

(** ** The risk scorer of the first script *)





(** ** The scores and predictions of the second script *)

Lemma risk_scores2_ok G accs hr :
  searchable G accs ->
  exists rs,
    risk_scores2 G accs hr = Ok rs /\
    (forall a, In a accs ->
       exists m,
         get rs a = Some m /\ min_distance_of G hr a = Ok m /\
         (In a hr -> m = Finite 0) /\
         ((forall r, In r hr -> ~ reachable G a r) -> m = Infinity)).
Proof.
  intros (Hwf & Hpos & Hacc). unfold risk_scores2.
  destruct (keyed_total (fun _ => false) (min_distance_of G hr)
              (risk_step2 G hr) (risk_step2_eq G hr) accs) with (acc := @nil (node * xdist))
    as [rs Ers].
  { intros a Ha _.
    destruct (min_distance_of_ok G a Hwf Hpos (Hacc a Ha) hr) as (m & E & _).
    eauto. }
  exists rs. split; [exact Ers|].
  intros a Ha.
  destruct (keyed_get (fun _ => false) (min_distance_of G hr)
              (risk_step2 G hr) (risk_step2_eq G hr) accs [] rs Ers a)
    as [H1 _].
  destruct (H1 Ha eq_refl) as (m & Em & Eg).
  destruct (min_distance_of_ok G a Hwf Hpos (Hacc a Ha) hr)
    as (m' & Em' & _ & Hz & _ & Hinf).
  rewrite Em in Em'. injection Em' as <-.
  exists m. repeat split; auto.
Qed.

Lemma predict_total rs t accs :
  (forall a, In a accs -> mem rs a = true) ->
  exists preds, predict rs t accs = Ok preds.
Proof.
  intros H. unfold predict.
  apply (keyed_total (fun _ => false)
           (fun a => match get rs a with
                     | Some d => Ok (classify d t)
                     | None => Raise KeyError
                     end)).
  - intros d a. now destruct (get rs a).
  - intros a Ha _. apply H in Ha. apply mem_true_get in Ha.
    destruct Ha as [d ->]. eauto.
Qed.

Lemma scoring2_ok accs txs hr t :
  valid_transactions txs ->
  exists G rs preds,
    build_graph2 accs txs = Ok G /\ searchable G accs /\
    risk_scores2 G accs hr = Ok rs /\
    predict rs t accs = Ok preds /\
    scoring2 accs txs hr t = Ok (rs, preds).
Proof.
  intros Hv.
  destruct (build_graph2_searchable accs txs Hv) as (G & EG & HG).
  destruct (risk_scores2_ok G accs hr HG) as (rs & Ers & Hrs).
  destruct (predict_total rs t accs) as [preds Ep].
  { intros a Ha. destruct (Hrs a Ha) as (m & Em & _).
    apply mem_true_get. eauto. }
  exists G, rs, preds. repeat split; try apply HG; auto.
  unfold scoring2. rewrite EG. simpl. rewrite Ers. simpl. now rewrite Ep.
Qed.

(** C9.  With valid transactions, an account of the list that is itself
    high-risk gets distance 0 and, for every strictly positive threshold,
    the label fraud. *)
Theorem high_risk_account_predicted_fraud :
  forall (accs : list node) (gt : dict Z) (txs : list transaction)
         (hr : list node) (t : Q) (a : node),
    valid_transactions txs ->
    In a accs -> In a hr -> 0 < t ->
    exists rs preds ev,
      script2 accs gt txs hr t = Ok (rs, preds, ev) /\
      get rs a = Some (Finite 0) /\
      get preds a = Some 1%Z.
Proof.
  intros accs gt txs hr t a Hv Ha Hh Ht.
  destruct (scoring2_ok accs txs hr t Hv)
    as (G & rs & preds & EG & HG & Ers & Ep & Es).
  exists rs, preds, (evaluate accs gt preds).
  split; [unfold script2; now rewrite Es|].
  destruct (risk_scores2_ok G accs hr HG) as (rs' & Ers' & Hrs).
  rewrite Ers in Ers'. injection Ers' as <-.
  destruct (Hrs a Ha) as (m & Em & _ & Hz & _).
  rewrite (Hz Hh) in Em. split; [exact Em|].
  destruct (predict_get rs t accs [] preds Ep) as [H1 _].
  destruct (H1 a Ha) as (d & Ed & Epa).
  rewrite Em in Ed. injection Ed as <-.
  rewrite Epa. f_equal. apply classify_fraud. exact Ht.
Qed.

Lemma high_risk_account_predicted_fraud_witness :
  exists rs preds ev,
    script2 accounts ground_truth transactions high_risk_accounts THRESHOLD
      = Ok (rs, preds, ev) /\
    get rs "Offshore_X" = Some (Finite 0) /\
    get preds "Offshore_X" = Some 1%Z.
Proof.
  apply (high_risk_account_predicted_fraud accounts ground_truth transactions
           high_risk_accounts THRESHOLD "Offshore_X").
  - repeat constructor.
  - simpl. tauto.
  - simpl. tauto.
  - reflexivity.
Defined.

(** ** The two scripts build the same weighted graph *)

Lemma get_dmap {A B : Type} (f : A -> B) (d : dict A) k :
  get (dmap f d) k = option_map f (get d k).
Proof.
  induction d as [|[k' v] d IH]; simpl; [reflexivity|].
  now destruct (String.eqb k' k).
Qed.

Lemma mem_dmap {A B : Type} (f : A -> B) (d : dict A) k :
  mem (dmap f d) k = mem d k.
Proof. unfold mem. rewrite get_dmap. now destruct (get d k). Qed.


Lemma weighted_get G1 G2 k :
  weighted G1 = weighted G2 ->
  option_map (dmap weight_fn) (get G1 k)
  = option_map (dmap weight_fn) (get G2 k).
Proof. intros H. unfold weighted in H. now rewrite <- !get_dmap, H. Qed.

Lemma weighted_mem G1 G2 k : weighted G1 = weighted G2 -> mem G1 k = mem G2 k.
Proof.
  intros H. unfold weighted in H.
  now rewrite <- (mem_dmap (dmap weight_fn) G1), H, mem_dmap.
Qed.





(** ** The search reads the weighted graph only *)

Lemma relax_weight_only v d st u e1 e2 :
  weight_fn e1 = weight_fn e2 ->
  relax v d st (u, e1) = relax v d st (u, e2).
Proof. intros H. unfold relax. now rewrite H. Qed.

Lemma for_each_relax_weighted v d :
  forall s1 s2,
    dmap weight_fn s1 = dmap weight_fn s2 ->
    forall st, for_each (relax v d) s1 st = for_each (relax v d) s2 st.
Proof.
  induction s1 as [|[u1 e1] s1 IH]; intros [|[u2 e2] s2] H st;
    try discriminate; [reflexivity|].
  simpl in H. injection H as -> Hw Hs.
  cbn [for_each]. rewrite (relax_weight_only v d st u2 e1 e2 Hw).
  destruct (relax v d st (u2, e2)); cbn [bind]; [now apply IH | reflexivity].
Qed.

Lemma dijkstra_loop_weighted G1 G2 target :
  weighted G1 = weighted G2 ->
  forall fuel st,
    dijkstra_loop G1 target fuel st = dijkstra_loop G2 target fuel st.
Proof.
  intros H. induction fuel as [|fuel IH]; intros st; [reflexivity|].
  cbn [dijkstra_loop].
  destruct (heappop (fringe st)) as [[[[d c] v] rest]|]; [|reflexivity].
  destruct (mem (dist st) v); [apply IH|].
  destruct (String.eqb v target); [reflexivity|].
  pose proof (weighted_get _ _ v H) as Hv.
  destruct (get G1 v) as [s1|], (get G2 v) as [s2|];
    simpl in Hv; try discriminate; [|reflexivity].
  injection Hv as Hv. rewrite (for_each_relax_weighted v d s1 s2 Hv).
  destruct (for_each (relax v d) s2 _); cbn [bind]; [apply IH | reflexivity].
Qed.

Lemma number_of_edges_weighted G :
  number_of_edges G
  = list_sum (map (fun vs => List.length (snd vs)) (weighted G)).
Proof.
  induction G as [|[v s] G IH]; simpl; [reflexivity|].
  unfold dmap at 1. now rewrite length_map, IH.
Qed.

Lemma dijkstra_path_length_weighted G1 G2 s t :
  weighted G1 = weighted G2 ->
  dijkstra_path_length G1 s t = dijkstra_path_length G2 s t.
Proof.
  intros H. unfold dijkstra_path_length, dijkstra_multisource, loop_bound.
  rewrite (weighted_mem _ _ s H), !number_of_edges_weighted, H.
  now rewrite (dijkstra_loop_weighted G1 G2 t H).
Qed.




(** ** The confusion matrix *)

Lemma insert_label_In x l y : In y (insert_label x l) <-> y = x \/ In y l.
Proof.
  induction l as [|z l IH]; simpl; [intuition auto|].
  destruct (Z.compare_spec x z) as [->|Hlt|Hgt]; simpl.
  - intuition auto.
  - intuition auto.
  - rewrite IH. intuition auto.
Qed.

Lemma insert_label_sorted x l :
  StronglySorted Z.lt l -> StronglySorted Z.lt (insert_label x l).
Proof.
  induction l as [|z l IH]; simpl; intros H.
  - repeat constructor.
  - inversion H as [|? ? Hs Hall]; subst.
    destruct (Z.compare_spec x z) as [->|Hlt|Hgt].
    + exact H.
    + constructor; [exact H|]. constructor; [exact Hlt|].
      rewrite Forall_forall in *. intros y Hy. specialize (Hall y Hy). lia.
    + constructor; [now apply IH|].
      rewrite Forall_forall in *. intros y Hy.
      apply insert_label_In in Hy. destruct Hy as [->|Hy]; [lia | auto].
Qed.

Lemma sorted_NoDup l : StronglySorted Z.lt l -> NoDup l.
Proof.
  induction 1 as [|a l Hs IH Hall]; constructor; [|exact IH].
  intros Hin. rewrite Forall_forall in Hall. specialize (Hall a Hin). lia.
Qed.

Lemma unique_labels_spec y_true y_pred :
  NoDup (unique_labels y_true y_pred) /\
  forall y, In y (unique_labels y_true y_pred) <-> In y (y_true ++ y_pred).
Proof.
  unfold unique_labels. split.
  - apply sorted_NoDup.
    induction (y_true ++ y_pred) as [|x l IH]; simpl;
      [constructor | now apply insert_label_sorted].
  - intros y. induction (y_true ++ y_pred) as [|x l IH]; simpl; [tauto|].
    rewrite insert_label_In, IH. intuition auto.
Qed.

Lemma list_sum_map_add {A : Type} (f g : A -> nat) l :
  list_sum (map (fun x => (f x + g x)%nat) l)
  = (list_sum (map f l) + list_sum (map g l))%nat.
Proof. induction l as [|x l IH]; simpl; [reflexivity | rewrite IH; lia]. Qed.

Lemma list_sum_map_zero {A : Type} (f : A -> nat) l :
  (forall x, f x = 0%nat) -> list_sum (map f l) = 0%nat.
Proof.
  intros H. induction l as [|x l IH]; simpl; [reflexivity|].
  now rewrite H, IH.
Qed.

Lemma list_sum_indicator a l :
  NoDup l ->
  list_sum (map (fun t => if Z.eqb a t then 1%nat else 0%nat) l)
  = if in_dec Z.eq_dec a l then 1%nat else 0%nat.
Proof.
  induction 1 as [|x l Hx Hnd IH]; simpl; [reflexivity|].
  rewrite IH. destruct (Z.eq_dec x a) as [->|Hne].
  - rewrite Z.eqb_refl. destruct (in_dec Z.eq_dec a l); [contradiction|].
    reflexivity.
  - destruct (Z.eqb_spec a x); [congruence|].
    now destruct (in_dec Z.eq_dec a l).
Qed.

Lemma count_pair_cons t p a b pairs :
  count_pair t p ((a, b) :: pairs)
  = ((if Z.eqb a t then if Z.eqb b p then 1 else 0 else 0)
     + count_pair t p pairs)%nat.
Proof.
  unfold count_pair. simpl.
  destruct (Z.eqb a t), (Z.eqb b p); reflexivity.
Qed.

(** Every sample falls in exactly one cell of the matrix. *)
Lemma cells_sum labels pairs :
  NoDup labels ->
  (forall a b, In (a, b) pairs -> In a labels /\ In b labels) ->
  list_sum
    (map (fun t => list_sum (map (fun p => count_pair t p pairs) labels))
         labels)
  = List.length pairs.
Proof.
  intros Hnd. induction pairs as [|[a b] pairs IH]; intros Hin.
  - simpl. apply list_sum_map_zero. intros t.
    now apply list_sum_map_zero.
  - destruct (Hin a b (or_introl eq_refl)) as [Ha Hb].
    rewrite (map_ext _
      (fun t => ((if Z.eqb a t then 1 else 0)
                 + list_sum (map (fun p => count_pair t p pairs) labels))%nat)).
    + rewrite list_sum_map_add, IH by (intros; apply Hin; now right).
      rewrite (list_sum_indicator a labels Hnd).
      destruct (in_dec Z.eq_dec a labels); [reflexivity | contradiction].
    + intros t.
      rewrite (map_ext _
        (fun p => ((if Z.eqb a t then if Z.eqb b p then 1 else 0 else 0)
                   + count_pair t p pairs)%nat))
        by (intros; apply count_pair_cons).
      rewrite list_sum_map_add. f_equal.
      destruct (Z.eqb a t).
      * rewrite (list_sum_indicator b labels Hnd).
        destruct (in_dec Z.eq_dec b labels); [reflexivity | contradiction].
      * now apply list_sum_map_zero.
Qed.

Lemma confusion_matrix_sum y_true y_pred :
  matrix_sum (confusion_matrix y_true y_pred)
  = List.length (combine y_true y_pred).
Proof.
  unfold matrix_sum, confusion_matrix. rewrite map_map.
  destruct (unique_labels_spec y_true y_pred) as [Hnd Hin].
  apply cells_sum; [exact Hnd|].
  intros a b Hab. split; apply Hin, in_or_app.
  - left. eapply in_combine_l; eauto.
  - right. eapply in_combine_r; eauto.
Qed.

Lemma lookup_all_ok {V : Type} (d : dict V) keys :
  (forall k, In k keys -> mem d k = true) ->
  exists vs, lookup_all d keys = Ok vs /\ List.length vs = List.length keys.
Proof.
  induction keys as [|k keys IH]; intros H; simpl; [eauto|].
  destruct (proj1 (mem_true_get d k) (H k (or_introl eq_refl))) as [v ->].
  destruct IH as (vs & -> & Hlen); [intros; apply H; now right|].
  simpl. exists (v :: vs). split; [reflexivity | simpl; now rewrite Hlen].
Qed.



(** The sample run of the second script: nine accounts, the high-risk ones
    included, one false positive and no false negative. *)
Lemma sample_evaluation :
  script2 accounts ground_truth transactions high_risk_accounts THRESHOLD
  = Ok (sample_risk_distances, sample_predictions,
        Ok [[3%nat; 1%nat]; [0%nat; 5%nat]]).
Proof. vm_compute. reflexivity. Qed.

(** In the second script the predictions have a label for every account by
    construction, so with valid transactions and a ground truth that covers
    the accounts the whole script succeeds and its matrix counts every
    account, high-risk or not. *)
Lemma script2_counts_every_account accs gt txs hr t :
  valid_transactions txs ->
  (forall a, In a accs -> mem gt a = true) ->
  exists rs preds cm,
    script2 accs gt txs hr t = Ok (rs, preds, Ok cm) /\
    matrix_sum cm = List.length accs.
Proof.
  intros Hv Hgt.
  destruct (scoring2_ok accs txs hr t Hv)
    as (G & rs & preds & _ & _ & _ & Ep & Es).
  destruct (predict_get rs t accs [] preds Ep) as [Hp _].
  destruct (lookup_all_ok gt accs Hgt) as (yt & Et & Lt).
  destruct (lookup_all_ok preds accs) as (yp & Eyp & Lp).
  { intros a Ha. destruct (Hp a Ha) as (d & _ & E).
    apply mem_true_get. eauto. }
  exists rs, preds, (confusion_matrix yt yp). split.
  - unfold script2. rewrite Es. simpl. unfold evaluate.
    now rewrite Et, Eyp.
  - rewrite confusion_matrix_sum, length_combine. lia.
Qed.

(** ** Ground truth and scoring *)

(** C8.  The risk distances and the predictions of the second script do
    not depend on the ground truth: two runs that differ in the ground
    truth only end with the same dictionaries (or with the same exception
    before any is complete), which are those of the scoring stage, a
    function that does not take the ground truth at all. *)
Theorem ground_truth_does_not_influence_scoring :
  forall (accs : list node) (txs : list transaction) (hr : list node)
         (t : Q) (gt1 gt2 : dict Z),
    map_result fst (script2 accs gt1 txs hr t)
    = map_result fst (script2 accs gt2 txs hr t) /\
    map_result fst (script2 accs gt1 txs hr t) = scoring2 accs txs hr t /\
    (forall rs preds ev,
       script2 accs gt1 txs hr t = Ok (rs, preds, ev) ->
       script2 accs gt2 txs hr t = Ok (rs, preds, evaluate accs gt2 preds)).
Proof.
  intros accs txs hr t gt1 gt2. unfold script2.
  destruct (scoring2 accs txs hr t) as [[rs preds]|e]; simpl.
  - repeat split. intros rs' preds' ev H. now injection H as <- <- _.
  - repeat split. discriminate.
Qed.

(** ** A missing route, in general *)

Lemma dijkstra_path_no_path G s t :
  wf_graph G -> positive_weights G -> mem G s = true ->
  ~ reachable G s t ->
  dijkstra_path G s t = Raise NetworkXNoPath.
Proof.
  intros Hwf Hpos Hs Hnr. unfold dijkstra_path. rewrite Hs. simpl.
  destruct (String.eqb_spec t s) as [->|_];
    [exfalso; apply Hnr; constructor|].
  destruct (dijkstra_multisource_total G s Hwf Hpos t
              (Some [(s, [s])]) Hs) as (st & E & Hd).
  { intros p Hp. injection Hp as <-. unfold mem. simpl.
    now rewrite String.eqb_refl. }
  rewrite E. simpl.
  destruct (get (dist st) t) as [d|] eqn:Et.
  - exfalso. apply Hnr. exact (proj1 (Hd _ _ Et)).
  - reflexivity.
Qed.


(** ** The two risk scorers, on any pair of graphs with the same weights *)

Lemma risk_scorers_agree G1 G2 accs hr rs1 rs2 :
  weighted G1 = weighted G2 ->
  risk_scores1 G1 accs hr = Ok rs1 ->
  risk_scores2 G2 accs hr = Ok rs2 ->
  forall a, In a accs -> ~ In a hr ->
    exists e, get rs1 a = Some e /\ get rs2 a = Some (distancia e).
Proof.
  intros HW E1 E2 a Ha Hn.
  assert (Hs : in_list a hr = false).
  { destruct (in_list a hr) eqn:E; [|reflexivity].
    apply in_list_In in E. contradiction. }
  destruct (keyed_get (fun a => in_list a hr) (risk_entry_of G1 hr)
              (risk_step1 G1 hr) (risk_step1_eq G1 hr) accs [] rs1 E1 a)
    as [H1 _].
  destruct (H1 Ha Hs) as (e & Ee & Eg1).
  destruct (keyed_get (fun _ => false) (min_distance_of G2 hr)
              (risk_step2 G2 hr) (risk_step2_eq G2 hr) accs [] rs2 E2 a)
    as [H2 _].
  destruct (H2 Ha eq_refl) as (m & Em & Eg2).
  exists e. split; [exact Eg1|].
  pose proof (risk_entry_distance G1 G2 hr a e
                (fun r => dijkstra_path_length_weighted G1 G2 a r HW) Ee) as Hm.
  rewrite Hm in Em. injection Em as <-. exact Eg2.
Qed.

(** * Further properties *)

(** ** What the search computes *)

Lemma relax_cases v d st u e st' :
  relax v d st (u, e) = Ok st' ->
  (st' = st /\ covered st d u e) \/
  (mem (dist st) u = false /\
   (forall y, get (seen st) u = Some y -> d + weight_fn e < y) /\
   dist st' = dist st /\
   seen st' = set (seen st) u (d + weight_fn e) /\
   fringe st' = (d + weight_fn e, counter st, u) :: fringe st /\
   match paths st with
   | None => paths st' = None
   | Some P =>
       exists pv, get P v = Some pv /\ paths st' = Some (set P u (pv ++ [u]))
   end).
Proof.
  unfold relax, covered, mem.
  destruct (get (dist st) u) as [u_dist|] eqn:Ed.
  - destruct (Qltb _ _); [discriminate|].
    intros H. injection H as <-. left. auto.
  - destruct (get (seen st) u) as [seen_u|] eqn:Es.
    + destruct (Qltb (d + weight_fn e) seen_u) eqn:El.
      * apply Qltb_true in El.
        destruct (paths st) as [P|].
        -- destruct (get P v) as [pv|]; simpl; [|discriminate].
           intros H. injection H as <-. right. simpl.
           repeat split; eauto. intros y Hy. now injection Hy as <-.
        -- simpl. intros H. injection H as <-. right. simpl.
           repeat split; eauto. intros y Hy. now injection Hy as <-.
      * apply Qltb_false in El.
        intros H. injection H as <-. left. split; [reflexivity|].
        right. eauto.
    + destruct (paths st) as [P|].
      * destruct (get P v) as [pv|]; simpl; [|discriminate].
        intros H. injection H as <-. right. simpl.
        repeat split; eauto. discriminate.
      * simpl. intros H. injection H as <-. right. simpl.
        repeat split; eauto. discriminate.
Qed.

Lemma covered_mono st st' x u e :
  dist st' = dist st ->
  (forall w y, get (seen st) w = Some y ->
     exists y', get (seen st') w = Some y' /\ y' <= y) ->
  covered st x u e -> covered st' x u e.
Proof.
  intros Hd Hs [H|(y & Hy & Hle)]; unfold covered; rewrite Hd; [now left|].
  right. destruct (Hs _ _ Hy) as (y' & Hy' & Hle').
  exists y'. split; [exact Hy'|]. now apply Qle_trans with y.
Qed.

Section Correct.

Variable G : graph.
Variable s : node.

(** One successor visited: the invariant is kept and the edge is covered. *)
Lemma relax_keeps_inv v d st u e st' :
  get (dist st) v = Some d ->
  edge G v u e ->
  search_inv G s (Some v) st ->
  relax v d st (u, e) = Ok st' ->
  search_inv G s (Some v) st' /\ covered st' d u e /\
  dist st' = dist st /\
  (forall i, In i (fringe st) -> In i (fringe st')) /\
  (forall w y, get (seen st) w = Some y ->
     exists y', get (seen st') w = Some y' /\ y' <= y).
Proof.
  intros Hv Hedge Hinv H.
  destruct (relax_cases _ _ _ _ _ _ H)
    as [[-> Hc]|(Hu & Hlt & Hd & Hs & Hf & Hp)].
  { split; [exact Hinv|]. split; [exact Hc|]. split; [reflexivity|].
    split; [auto|]. intros w y Hy. exists y. split; [exact Hy|].
    apply Qle_refl. }
  destruct Hinv as (J1 & J2 & J3 & J4 & J5 & J6).
  assert (Hmono : forall w y, get (seen st) w = Some y ->
            exists y', get (seen st') w = Some y' /\ y' <= y).
  { intros w y Hy. rewrite Hs, get_set.
    destruct (String.eqb_spec u w) as [<-|_].
    - eexists. split; [reflexivity|]. apply Qlt_le_weak. now apply Hlt.
    - exists y. split; [exact Hy | apply Qle_refl]. }
  assert (Hcov : covered st' d u e).
  { right. rewrite Hs, get_set_same. eexists. split; [reflexivity|].
    apply Qle_refl. }
  split; [|split; [exact Hcov|split; [exact Hd|split; [|exact Hmono]]]].
  2:{ intros i Hi. rewrite Hf. now right. }
  unfold search_inv. rewrite Hd.
  split; [|split; [|split; [|split; [|split]]]].
  - intros w x Hw. split.
    + destruct (J1 _ _ Hw) as [(y & Hy & Hyx) _].
      exists y. split; [|exact Hyx].
      rewrite Hs, get_set_other; [exact Hy|].
      intros <-. unfold mem in Hu. now rewrite Hw in Hu.
    + exact (proj2 (J1 _ _ Hw)).
  - intros v' x u' e' Hv' Hne He'.
    apply covered_mono with st;
      [exact Hd | exact Hmono | exact (J2 _ _ _ _ Hv' Hne He')].
  - intros w y Hy Hw. rewrite Hs, get_set in Hy. rewrite Hf.
    destruct (String.eqb_spec u w) as [<-|_].
    + injection Hy as <-. eexists. now left.
    + destruct (J3 _ _ Hy Hw) as [c Hc]. exists c. now right.
  - rewrite Hf, Hs. intros i [<-|Hi]; simpl.
    + rewrite get_set_same. eexists. split; [reflexivity|].
      unfold key. simpl. apply Qle_refl.
    + destruct (J4 _ Hi) as (y & Hy & Hle). rewrite get_set.
      destruct (String.eqb_spec u (snd i)) as [E|_].
      * eexists. split; [reflexivity|]. rewrite E in Hlt.
        specialize (Hlt _ Hy). apply Qlt_le_weak.
        now apply Qlt_le_trans with y.
      * eauto.
  - intros w y Hy. rewrite Hs, get_set in Hy.
    destruct (String.eqb_spec u w) as [<-|Hne].
    + injection Hy as <-.
      destruct (J1 _ _ Hv) as [(yv & Hyv & Hyd) _].
      destruct (J5 _ _ Hyv) as (pv & wv & Hwalk & Hwv & HP).
      exists (pv ++ [u]), (wv + weight_fn e). split; [|split].
      * now apply walk_step with v.
      * rewrite Hwv, Hyd. reflexivity.
      * intros P' HP'. destruct (paths st) as [P|].
        -- destruct Hp as (pv' & Hpv' & Hp). rewrite Hp in HP'.
           injection HP' as <-. rewrite (HP P eq_refl) in Hpv'.
           injection Hpv' as <-. apply get_set_same.
        -- congruence.
    + destruct (J5 _ _ Hy) as (p & w' & Hwalk & Hw' & HP).
      exists p, w'. repeat split; auto.
      intros P' HP'. destruct (paths st) as [P|].
      * destruct Hp as (pv' & Hpv' & Hp). rewrite Hp in HP'.
        injection HP' as <-. rewrite get_set_other by exact Hne.
        now apply HP.
      * congruence.
  - destruct J6 as (y & Hy & Hle).
    destruct (Hmono _ _ Hy) as (y' & Hy' & Hle').
    exists y'. split; [exact Hy'|]. now apply Qle_trans with y.
Qed.

Lemma for_each_relax_keeps_inv v d l :
  forall st st',
    get (dist st) v = Some d ->
    (forall u e, In (u, e) l -> edge G v u e) ->
    search_inv G s (Some v) st ->
    for_each (relax v d) l st = Ok st' ->
    search_inv G s (Some v) st' /\
    (forall u e, In (u, e) l -> covered st' d u e) /\
    dist st' = dist st /\
    (forall i, In i (fringe st) -> In i (fringe st')) /\
    (forall w y, get (seen st) w = Some y ->
       exists y', get (seen st') w = Some y' /\ y' <= y).
Proof.
  induction l as [|[u e] l IH]; intros st st' Hv Hedges Hinv H;
    cbn [for_each] in H.
  - injection H as <-. split; [exact Hinv|]. split; [intros u e []|].
    split; [reflexivity|]. split; [auto|].
    intros w y Hy. exists y. split; [exact Hy | apply Qle_refl].
  - destruct (relax v d st (u, e)) as [st1|] eqn:E1; cbn [bind] in H;
      [|discriminate].
    destruct (relax_keeps_inv v d st u e st1 Hv
                (Hedges u e (or_introl eq_refl)) Hinv E1)
      as (Hinv1 & Hc1 & Hd1 & Hf1 & Hs1).
    assert (Hv1 : get (dist st1) v = Some d) by now rewrite Hd1.
    destruct (IH st1 st' Hv1 (fun u' e' H' => Hedges u' e' (or_intror H'))
                Hinv1 H) as (Hinv' & Hc' & Hd' & Hf' & Hs').
    split; [exact Hinv'|]. split; [|split; [|split]].
    + intros u' e' [E|Hin].
      * injection E as <- <-. now apply covered_mono with st1.
      * now apply Hc'.
    + now rewrite Hd'.
    + auto.
    + intros w y Hy. destruct (Hs1 _ _ Hy) as (y1 & Hy1 & Hle1).
      destruct (Hs' _ _ Hy1) as (y' & Hy' & Hle').
      exists y'. split; [exact Hy'|]. now apply Qle_trans with y1.
Qed.

Hypothesis G_nonneg : nonneg_weights G.

(** A walk ends at a node that has its final distance, at most the weight
    of the walk, or the heap holds an entry that is at most that weight. *)
Lemma frontier st :
  search_inv G s None st ->
  forall u p w,
    walk G s u p w ->
    (exists x, get (dist st) u = Some x /\ x <= w) \/
    (exists i, In i (fringe st) /\ key i <= w).
Proof.
  intros (J1 & J2 & J3 & J4 & J5 & J6) u p w Hw.
  assert (Hnode : forall u y w,
            get (seen st) u = Some y -> y <= w ->
            (forall x, get (dist st) u = Some x -> x <= w) ->
            (exists x, get (dist st) u = Some x /\ x <= w) \/
            (exists i, In i (fringe st) /\ key i <= w)).
  { intros u0 y w0 Hy Hle Hopt.
    destruct (get (dist st) u0) as [x|] eqn:Ed.
    - left. exists x. split; [reflexivity | now apply Hopt].
    - right. destruct (J3 _ _ Hy) as [c Hc]; [unfold mem; now rewrite Ed|].
      exists (y, c, u0). split; [exact Hc | exact Hle]. }
  induction Hw as [|v u e p d Hw IH Hedge].
  - destruct J6 as (y & Hy & Hle).
    apply (Hnode s y 0); auto.
    intros x Hx. destruct (J1 _ _ Hx) as [(y' & Hy' & Hyx) _].
    rewrite Hy in Hy'. injection Hy' as <-. now rewrite <- Hyx.
  - pose proof (G_nonneg _ _ _ Hedge) as Hnn.
    destruct IH as [(x & Hx & Hle)|(i & Hi & Hle)].
    + assert (Hopt : forall x', get (dist st) u = Some x' ->
                       x' <= d + weight_fn e).
      { intros x' Hx'. apply (proj2 (J1 _ _ Hx') (p ++ [u])).
        now apply walk_step with v. }
      destruct (J2 v x u e Hx) as [Hm|(y & Hy & Hyle)];
        [discriminate | exact Hedge | |].
      * left. apply mem_true_get in Hm. destruct Hm as [x' Hx'].
        exists x'. split; [exact Hx' | now apply Hopt].
      * apply (Hnode u y (d + weight_fn e)); auto. lra.
    + right. exists i. split; [exact Hi | lra].
Qed.

(** The loop, when it ends without an exception, has given the target a
    final distance that no walk to the target undercuts, provided there is
    a walk; and every final distance is the weight of the walk recorded in
    [paths]. *)
Lemma loop_correct target :
  forall fuel st st',
    search_inv G s None st ->
    dijkstra_loop G target fuel st = Ok st' ->
    (exists pending, search_inv G s pending st') /\
    (forall p w, walk G s target p w ->
       exists x, get (dist st') target = Some x /\ x <= w).
Proof.
  induction fuel as [|fuel IH]; intros st st' Hinv H; [discriminate|].
  cbn [dijkstra_loop] in H.
  destruct (fringe st) as [|x0 l] eqn:Ef; cbn [heappop] in H.
  - injection H as <-. split; [eauto|].
    intros p w Hw. destruct (frontier st Hinv _ _ _ Hw) as [Hl|(i & Hi & _)];
      [exact Hl|]. rewrite Ef in Hi. contradiction.
  - destruct (pop_min x0 l) as [[[d c] v] rest] eqn:Epop.
    destruct (pop_min_spec _ _ _ _ Epop) as (Hlen & Hin & Hmin).
    assert (Hm_in : In (d, c, v) (fringe st))
      by (rewrite Ef; apply Hin; now left).
    assert (Hrest : forall i, In i rest -> In i (fringe st))
      by (intros i Hi; rewrite Ef; apply Hin; now right).
    assert (Hleast : forall i, In i (fringe st) -> d <= key i).
    { intros i Hi. rewrite Ef in Hi. apply Hin in Hi.
      destruct Hi as [->|Hi]; [apply Qle_refl | exact (Hmin i Hi)]. }
    pose proof Hinv as (J1 & J2 & J3 & J4 & J5 & J6).
    destruct (mem (dist st) v) eqn:Ev.
    + apply (IH _ _ ) in H; [exact H|].
      unfold search_inv. cbn [dist seen fringe paths].
      split; [exact J1|]. split; [exact J2|]. split; [|split; [|split]]; auto.
      intros u y Hy Hu. destruct (J3 _ _ Hy Hu) as [c' Hc'].
      exists c'. rewrite Ef in Hc'. apply Hin in Hc'.
      destruct Hc' as [E|Hc']; [|exact Hc'].
      injection E as _ _ ->. congruence.
    + assert (Hnone : get (dist st) v = None).
      { unfold mem in Ev. now destruct (get (dist st) v). }
      destruct (J4 _ Hm_in) as (yv & Hyv & Hyle).
      cbn [snd key fst] in Hyv, Hyle.
      assert (Hyd : yv == d).
      { apply Qle_antisym; [exact Hyle|].
        destruct (J3 _ _ Hyv Ev) as [c' Hc']. exact (Hleast _ Hc'). }
      assert (Hopt : forall p w, walk G s v p w -> d <= w).
      { intros p w Hw.
        destruct (frontier st Hinv _ _ _ Hw) as [(x & Hx & _)|(i & Hi & Hle)];
          [congruence|].
        apply Qle_trans with (key i); [now apply Hleast | exact Hle]. }
      set (st1 := mkState (set (dist st) v d) (seen st) rest (counter st)
                          (paths st)) in *.
      assert (Hinv1 : search_inv G s (Some v) st1).
      { unfold search_inv, st1. cbn [dist seen fringe paths].
        split; [|split; [|split; [|split; [|split]]]]; auto.
        - intros u x. rewrite get_set.
          destruct (String.eqb_spec v u) as [<-|_]; [|apply J1].
          intros E. injection E as <-. split; [eauto | exact Hopt].
        - intros v' x u e. rewrite get_set.
          destruct (String.eqb_spec v v') as [<-|Hne]; [congruence|].
          intros Hx _ Hedge.
          destruct (J2 _ _ _ _ Hx ltac:(discriminate) Hedge)
            as [Hm|Hs]; [left | now right].
          cbn [dist]. rewrite mem_set, Hm. apply orb_true_r.
        - intros u y Hy. rewrite mem_set.
          destruct (String.eqb_spec v u) as [<-|Hne]; [discriminate|].
          simpl. intros Hu. destruct (J3 _ _ Hy Hu) as [c' Hc'].
          exists c'. rewrite Ef in Hc'. apply Hin in Hc'.
          destruct Hc' as [E|Hc']; [|exact Hc'].
          injection E as _ _ ->. congruence. }
      destruct (String.eqb_spec v target) as [->|Hnt].
      * injection H as <-. split; [eauto|].
        intros p w Hw. exists d. split; [|exact (Hopt p w Hw)].
        unfold st1. cbn [dist]. apply get_set_same.
      * destruct (get G v) as [succ_v|] eqn:Esucc; [|discriminate].
        destruct (for_each (relax v d) succ_v st1) as [st2|] eqn:E2;
          cbn [bind] in H; [|discriminate].
        assert (Hv1 : get (dist st1) v = Some d)
          by (unfold st1; cbn [dist]; apply get_set_same).
        destruct (for_each_relax_keeps_inv v d succ_v st1 st2 Hv1)
          as (Hinv2 & Hcov & Hd2 & _ & _); auto.
        { intros u e Hue. exists succ_v. now split. }
        apply (IH _ _) in H; [exact H|].
        destruct Hinv2 as (K1 & K2 & K3 & K4 & K5 & K6).
        split; [exact K1|]. split; [|split; [|split; [|split]]]; auto.
        intros v' x u e Hx _ (succ' & Hsucc' & Hue).
        destruct (string_dec v' v) as [->|Hne].
        -- rewrite Hd2, Hv1 in Hx. injection Hx as <-.
           rewrite Esucc in Hsucc'. injection Hsucc' as <-.
           now apply Hcov.
        -- apply (K2 v' x u e); [exact Hx | congruence |].
           exists succ'. now split.
Qed.

End Correct.

Lemma positive_nonneg G : positive_weights G -> nonneg_weights G.
Proof.
  intros H v u e (succ_v & Hs & Hin). apply Qlt_le_weak.
  exact (H _ _ _ _ Hs Hin).
Qed.

Lemma walk_nonneg G s t p w : nonneg_weights G -> walk G s t p w -> 0 <= w.
Proof.
  intros Hn H. induction H as [|v u e p d H IH Hedge]; [apply Qle_refl|].
  pose proof (Hn _ _ _ Hedge). lra.
Qed.

Lemma reachable_walk G s t : reachable G s t <-> exists p w, walk G s t p w.
Proof.
  split.
  - induction 1 as [|u w H (p & d & IH) (succ_u & e & Hs & Hin)].
    + exists [s], 0. constructor.
    + exists (p ++ [w]), (d + weight_fn e).
      apply walk_step with u; [exact IH | exists succ_u; now split].
  - intros (p & w & H). induction H as [|v u e p d H IH (succ_v & Hs & Hin)].
    + constructor.
    + apply reach_step with v; [exact IH | exists succ_v, e; now split].
Qed.

Lemma init_search_inv G s paths0 :
  paths0 = None \/ paths0 = Some [(s, [s])] ->
  search_inv G s None
    (mkState [] [(s, 0)] (heappush [] (0, 0%nat, s)) 1%nat paths0).
Proof.
  intros Hp. unfold search_inv. cbn [dist seen fringe paths].
  assert (Hseen : forall u y, get [(s, 0)] u = Some y -> u = s /\ y = 0).
  { intros u y. simpl. destruct (String.eqb_spec s u) as [<-|_];
      [|discriminate]. intros E. now injection E as <-. }
  split; [discriminate|]. split; [discriminate|].
  split; [|split; [|split]].
  - intros u y Hy _. destruct (Hseen _ _ Hy) as [-> ->].
    exists 0%nat. now left.
  - intros i [<-|[]]. simpl. rewrite String.eqb_refl.
    eexists. split; [reflexivity | apply Qle_refl].
  - intros u y Hy. destruct (Hseen _ _ Hy) as [-> ->].
    exists [s], 0. split; [constructor|]. split; [reflexivity|].
    intros P HP. destruct Hp as [->| ->]; [discriminate|].
    injection HP as <-. simpl. now rewrite String.eqb_refl.
  - exists 0. simpl. rewrite String.eqb_refl. split; [reflexivity|].
    apply Qle_refl.
Qed.

(** The search with [paths] and the search without go through the same
    states. *)
Lemma relax_forget v d st ue st' :
  relax v d st ue = Ok st' -> relax v d (forget st) ue = Ok (forget st').
Proof.
  destruct ue as [u e]. unfold relax, forget.
  cbn [dist seen fringe counter paths].
  destruct (get (dist st) u).
  - destruct (Qltb _ _); [discriminate|]. intros H. now injection H as <-.
  - destruct (match get (seen st) u with
              | Some seen_u => Qltb (d + weight_fn e) seen_u
              | None => true
              end).
    + destruct (paths st) as [P|].
      * destruct (get P v); cbn [bind]; [|discriminate].
        intros H. now injection H as <-.
      * cbn [bind]. intros H. now injection H as <-.
    + intros H. now injection H as <-.
Qed.

Lemma for_each_relax_forget v d l :
  forall st st',
    for_each (relax v d) l st = Ok st' ->
    for_each (relax v d) l (forget st) = Ok (forget st').
Proof.
  induction l as [|ue l IH]; intros st st' H; cbn [for_each] in *.
  - now injection H as <-.
  - destruct (relax v d st ue) as [st1|] eqn:E; cbn [bind] in H;
      [|discriminate].
    rewrite (relax_forget _ _ _ _ _ E). cbn [bind]. now apply IH.
Qed.

Lemma loop_forget G target :
  forall fuel st st',
    dijkstra_loop G target fuel st = Ok st' ->
    dijkstra_loop G target fuel (forget st) = Ok (forget st').
Proof.
  induction fuel as [|fuel IH]; intros st st' H; [discriminate|].
  cbn [dijkstra_loop] in *.
  change (forget st)
    with (mkState (dist st) (seen st) (fringe st) (counter st) None).
  cbn [dist seen fringe counter paths].
  destruct (heappop (fringe st)) as [[[[d c] v] rest]|].
  - destruct (mem (dist st) v).
    + apply IH in H. exact H.
    + destruct (String.eqb v target).
      * now injection H as <-.
      * destruct (get G v) as [succ_v|]; [|discriminate].
        destruct (for_each (relax v d) succ_v _) as [st2|] eqn:E;
          cbn [bind] in H; [|discriminate].
        apply for_each_relax_forget in E. unfold forget at 1 in E.
        cbn [dist seen fringe counter paths] in E.
        rewrite E. cbn [bind]. now apply IH.
  - now injection H as <-.
Qed.

(** What a successful search from [s] leaves behind. *)
Lemma dijkstra_multisource_correct G s target paths0 st :
  nonneg_weights G ->
  paths0 = None \/ paths0 = Some [(s, [s])] ->
  dijkstra_multisource G s target paths0 = Ok st ->
  (forall p w, walk G s target p w ->
     exists x, get (dist st) target = Some x /\ x <= w) /\
  (forall u x, get (dist st) u = Some x ->
     (forall p w, walk G s u p w -> x <= w) /\
     exists p w, walk G s u p w /\ w == x /\
                 forall P, paths st = Some P -> get P u = Some p).
Proof.
  intros Hn Hp H. unfold dijkstra_multisource in H.
  destruct (loop_correct G s Hn target _ _ _ (init_search_inv G s paths0 Hp) H)
    as [(pend & J1 & _ & _ & _ & J5 & _) Hpost].
  split; [exact Hpost|].
  intros u x Hx. destruct (J1 _ _ Hx) as [(y & Hy & Hyx) Hopt].
  split; [exact Hopt|].
  destruct (J5 _ _ Hy) as (p & w & Hw & Hwy & HP).
  exists p, w. split; [exact Hw|]. split; [|exact HP].
  now rewrite Hwy.
Qed.

Lemma dijkstra_path_length_minimal G s t d :
  nonneg_weights G ->
  dijkstra_path_length G s t = Ok d ->
  (forall p w, walk G s t p w -> d <= w) /\
  exists p w, walk G s t p w /\ w == d.
Proof.
  intros Hn. unfold dijkstra_path_length.
  destruct (mem G s); simpl; [|discriminate].
  destruct (String.eqb_spec s t) as [<-|Hne].
  - intros H. injection H as <-. split.
    + intros p w Hw. now apply walk_nonneg with G s s p.
    + exists [s], 0. split; [constructor | reflexivity].
  - destruct (dijkstra_multisource G s t None) as [st|] eqn:E;
      cbn [bind]; [|discriminate].
    destruct (get (dist st) t) as [x|] eqn:Ex; [|discriminate].
    intros H. injection H as <-.
    destruct (dijkstra_multisource_correct G s t None st Hn (or_introl eq_refl) E)
      as [_ Hd].
    destruct (Hd _ _ Ex) as [Hopt (p & w & Hw & Hwx & _)]. eauto.
Qed.

Lemma dijkstra_path_length_no_walk G s t :
  nonneg_weights G ->
  dijkstra_path_length G s t = Raise NetworkXNoPath ->
  ~ reachable G s t.
Proof.
  intros Hn. unfold dijkstra_path_length.
  destruct (mem G s); simpl; [|discriminate].
  destruct (String.eqb s t); [discriminate|].
  destruct (dijkstra_multisource G s t None) as [st|] eqn:E; cbn [bind].
  - destruct (get (dist st) t) as [x|] eqn:Ex; [discriminate|].
    intros _ Hr. apply reachable_walk in Hr. destruct Hr as (p & w & Hw).
    destruct (dijkstra_multisource_correct G s t None st Hn (or_introl eq_refl) E)
      as [Hpost _].
    destruct (Hpost _ _ Hw) as (x & Hx & _). congruence.
  - intros H. injection H as ->.
    exfalso. revert E. unfold dijkstra_multisource. generalize (loop_bound G).
    generalize (mkState [] [(s, 0)] (heappush [] (0, 0%nat, s)) 1 None).
    intros st0 fuel. revert st0.
    induction fuel as [|fuel IH]; intros st0; [discriminate|].
    cbn [dijkstra_loop].
    destruct (heappop (fringe st0)) as [[[[d c] v] rest]|]; [|discriminate].
    destruct (mem (dist st0) v); [apply IH|].
    destruct (String.eqb v t); [discriminate|].
    destruct (get G v) as [succ_v|]; [|discriminate].
    destruct (for_each (relax v d) succ_v _) as [st2|] eqn:E2; cbn [bind].
    + apply IH.
    + intros H. injection H as ->. revert E2.
      generalize (mkState (set (dist st0) v d) (seen st0) rest (counter st0)
                          (paths st0)).
      induction succ_v as [|[u e] l IHl]; intros st1; [discriminate|].
      cbn [for_each].
      destruct (relax v d st1 (u, e)) as [st3|] eqn:E3; cbn [bind];
        [apply IHl|].
      intros H. injection H as ->. revert E3. unfold relax.
      destruct (get (dist st1) u).
      * destruct (Qltb _ _); discriminate.
      * destruct (match get (seen st1) u with
                  | Some seen_u => Qltb (d + weight_fn e) seen_u
                  | None => true
                  end); [|discriminate].
        destruct (paths st1) as [P|]; [|discriminate].
        destruct (get P v); discriminate.
Qed.

Lemma relax_paths_some v d st ue st' P :
  paths st = Some P -> relax v d st ue = Ok st' ->
  exists P', paths st' = Some P'.
Proof.
  intros HP H. destruct ue as [u e].
  destruct (relax_cases _ _ _ _ _ _ H) as [[-> _]|(_ & _ & _ & _ & _ & Hp)];
    [eauto|].
  rewrite HP in Hp. destruct Hp as (pv & _ & ->). eauto.
Qed.

Lemma for_each_relax_paths_some v d l :
  forall st st' P,
    paths st = Some P ->
    for_each (relax v d) l st = Ok st' ->
    exists P', paths st' = Some P'.
Proof.
  induction l as [|ue l IH]; intros st st' P HP E; cbn [for_each] in E.
  - injection E as <-. eauto.
  - destruct (relax v d st ue) as [st1|] eqn:E1; cbn [bind] in E;
      [|discriminate].
    destruct (relax_paths_some _ _ _ _ _ _ HP E1) as [P1 H1].
    now apply (IH st1 st' P1).
Qed.

Lemma loop_paths_some G target :
  forall fuel st st' P,
    paths st = Some P ->
    dijkstra_loop G target fuel st = Ok st' ->
    exists P', paths st' = Some P'.
Proof.
  induction fuel as [|fuel IH]; intros st st' P HP H; [discriminate|].
  cbn [dijkstra_loop] in H.
  destruct (heappop (fringe st)) as [[[[d c] v] rest]|].
  - destruct (mem (dist st) v); [now apply (IH _ _ P) in H|].
    destruct (String.eqb v target); [injection H as <-; eauto|].
    destruct (get G v) as [succ_v|]; [|discriminate].
    destruct (for_each (relax v d) succ_v _) as [st2|] eqn:E;
      cbn [bind] in H; [|discriminate].
    eapply for_each_relax_paths_some in E; [|exact HP].
    destruct E as [P2 HP2].
    now apply (IH _ _ P2) in H.
  - injection H as <-. eauto.
Qed.

Lemma dijkstra_path_valid G s t p :
  nonneg_weights G ->
  dijkstra_path G s t = Ok p ->
  exists w d,
    walk G s t p w /\ dijkstra_path_length G s t = Ok d /\ d == w.
Proof.
  intros Hn. unfold dijkstra_path, dijkstra_path_length.
  destruct (mem G s); simpl; [|discriminate].
  destruct (String.eqb_spec t s) as [->|Hne].
  - intros H. injection H as <-. rewrite String.eqb_refl.
    exists 0, 0. split; [constructor | split; reflexivity].
  - destruct (String.eqb_spec s t) as [E|_]; [congruence|].
    destruct (dijkstra_multisource G s t (Some [(s, [s])])) as [st|] eqn:E;
      cbn [bind]; [|discriminate].
    destruct (get (dist st) t) as [x|] eqn:Ex; [|discriminate].
    destruct (paths st) as [P|] eqn:EP; [|discriminate].
    destruct (get P t) as [p'|] eqn:Ep; [|discriminate].
    intros H. injection H as <-.
    destruct (dijkstra_multisource_correct G s t _ st Hn (or_intror eq_refl) E)
      as [_ Hd].
    destruct (Hd _ _ Ex) as [_ (p0 & w & Hw & Hwx & HP)].
    rewrite (HP P EP) in Ep. injection Ep as ->.
    exists w, x. split; [exact Hw|]. split; [|now rewrite Hwx].
    unfold dijkstra_multisource in E. apply loop_forget in E.
    unfold forget at 1 in E. cbn [dist seen fringe counter paths] in E.
    unfold dijkstra_multisource. rewrite E. cbn [bind].
    unfold forget. cbn [dist]. now rewrite Ex.
Qed.

Lemma dijkstra_path_found G s t :
  wf_graph G -> positive_weights G -> mem G s = true ->
  reachable G s t ->
  exists p, dijkstra_path G s t = Ok p.
Proof.
  intros Hwf Hpos Hs Hr. unfold dijkstra_path. rewrite Hs. simpl.
  destruct (String.eqb t s); [eauto|].
  destruct (dijkstra_multisource_total G s Hwf Hpos t (Some [(s, [s])]) Hs)
    as (st & E & _).
  { intros P HP. injection HP as <-. unfold mem. simpl.
    now rewrite String.eqb_refl. }
  rewrite E. cbn [bind].
  destruct (dijkstra_multisource_correct G s t _ st (positive_nonneg G Hpos)
              (or_intror eq_refl) E) as [Hpost Hd].
  apply reachable_walk in Hr. destruct Hr as (p & w & Hw).
  destruct (Hpost _ _ Hw) as (x & Hx & _). rewrite Hx.
  destruct (loop_paths_some G t (loop_bound G)
              (mkState [] [(s, 0)] (heappush [] (0, 0%nat, s)) 1%nat
                       (Some [(s, [s])]))
              st [(s, [s])] eq_refl E) as [P HP].
  rewrite HP.
  destruct (Hd _ _ Hx) as [_ (p0 & _ & _ & _ & Hp0)].
  rewrite (Hp0 P HP). eauto.
Qed.

Lemma sample_graph_searchable : searchable sample_graph accounts.
Proof.
  destruct (build_graph1_searchable accounts transactions) as (G & E & H).
  - repeat constructor.
  - unfold sample_graph. now rewrite E.
Qed.

(** X1.  The path returned by [dijkstra_path] is a walk of the graph from
    the source to the target, and [dijkstra_path_length] returns the sum of
    the weights along it. *)
Theorem dijkstra_path_is_a_walk_of_the_length :
  forall (G : graph) (s t : node) (p : list node),
    nonneg_weights G ->
    dijkstra_path G s t = Ok p ->
    exists w d,
      walk G s t p w /\ dijkstra_path_length G s t = Ok d /\ d == w.
Proof. intros G s t p. apply dijkstra_path_valid. Qed.

Lemma dijkstra_path_is_a_walk_of_the_length_witness :
  exists w d,
    walk sample_graph "Cuenta_A" "Offshore_X"
         ["Cuenta_A"; "Cuenta_B"; "Cuenta_C"; "Offshore_X"] w /\
    dijkstra_path_length sample_graph "Cuenta_A" "Offshore_X" = Ok d /\
    d == w.
Proof.
  apply (dijkstra_path_is_a_walk_of_the_length sample_graph).
  - apply positive_nonneg, sample_graph_searchable.
  - vm_compute. reflexivity.
Defined.

(** X2.  No walk from the source to the target weighs less than the length
    [dijkstra_path_length] returns, and some walk weighs exactly that. *)
Theorem dijkstra_path_length_is_least :
  forall (G : graph) (s t : node) (d : Q),
    nonneg_weights G ->
    dijkstra_path_length G s t = Ok d ->
    (forall p w, walk G s t p w -> d <= w) /\
    exists p w, walk G s t p w /\ w == d.
Proof. intros G s t d. apply dijkstra_path_length_minimal. Qed.

Lemma dijkstra_path_length_is_least_witness :
  (forall p w, walk sample_graph "Cuenta_A" "Offshore_X" p w ->
               96600000000000 # 5400000000000000 <= w) /\
  exists p w, walk sample_graph "Cuenta_A" "Offshore_X" p w /\
              w == 96600000000000 # 5400000000000000.
Proof.
  apply (dijkstra_path_length_is_least sample_graph).
  - apply positive_nonneg, sample_graph_searchable.
  - vm_compute. reflexivity.
Defined.

(** X3.  On a graph whose successors are nodes and whose weights are
    positive, a search from a node of the graph raises [NetworkXNoPath]
    exactly when the target cannot be reached, and returns a path and a
    length whenever it can. *)
Theorem no_path_exactly_when_unreachable :
  forall (G : graph) (s t : node),
    wf_graph G -> positive_weights G -> mem G s = true ->
    (dijkstra_path_length G s t = Raise NetworkXNoPath <-> ~ reachable G s t) /\
    (dijkstra_path G s t = Raise NetworkXNoPath <-> ~ reachable G s t) /\
    (reachable G s t ->
     exists p d, dijkstra_path G s t = Ok p /\
                 dijkstra_path_length G s t = Ok d).
Proof.
  intros G s t Hwf Hpos Hs.
  pose proof (positive_nonneg G Hpos) as Hn.
  assert (Hfound : reachable G s t ->
            exists p d, dijkstra_path G s t = Ok p /\
                        dijkstra_path_length G s t = Ok d).
  { intros Hr. destruct (dijkstra_path_found G s t Hwf Hpos Hs Hr) as [p Hp].
    destruct (dijkstra_path_valid G s t p Hn Hp) as (w & d & _ & Hd & _).
    eauto. }
  split; [|split; [|exact Hfound]].
  - split; [now apply dijkstra_path_length_no_walk|].
    now apply dijkstra_path_length_no_path.
  - split; [|now apply dijkstra_path_no_path].
    intros E Hr. destruct (Hfound Hr) as (p & _ & Hp & _). congruence.
Qed.

Lemma no_path_exactly_when_unreachable_witness :
  (dijkstra_path_length sample_graph "Offshore_Y" "Cuenta_A"
     = Raise NetworkXNoPath <->
   ~ reachable sample_graph "Offshore_Y" "Cuenta_A") /\
  (dijkstra_path sample_graph "Offshore_Y" "Cuenta_A"
     = Raise NetworkXNoPath <->
   ~ reachable sample_graph "Offshore_Y" "Cuenta_A") /\
  (reachable sample_graph "Offshore_Y" "Cuenta_A" ->
   exists p d,
     dijkstra_path sample_graph "Offshore_Y" "Cuenta_A" = Ok p /\
     dijkstra_path_length sample_graph "Offshore_Y" "Cuenta_A" = Ok d).
Proof.
  apply (no_path_exactly_when_unreachable sample_graph).
  - apply (proj1 sample_graph_searchable).
  - apply (proj1 (proj2 sample_graph_searchable)).
  - vm_compute. reflexivity.
Defined.

(** ** The graph the scripts build *)

Lemma add_transaction1_shape G u v m f :
  (m * f == 0 -> add_transaction1 G (u, v, m, f) = Raise ZeroDivisionError) /\
  (~ m * f == 0 ->
   add_transaction1 G (u, v, m, f) = Ok (add_edge G u v (attrs1 (m, f)))).
Proof.
  unfold add_transaction1, weighting, py_div, suspicion.
  destruct (Qeq_bool (m * f) 0) eqn:E; split; intros H; try reflexivity.
  - apply Qeq_bool_iff in E. contradiction.
  - apply Qeq_bool_neq in E. contradiction.
Qed.

Lemma add_transaction2_shape G u v m f :
  (m * f == 0 -> add_transaction2 G (u, v, m, f) = Raise ZeroDivisionError) /\
  (~ m * f == 0 ->
   add_transaction2 G (u, v, m, f) = Ok (add_edge G u v (attrs2 (m, f)))).
Proof.
  unfold add_transaction2, weighting, py_div, suspicion.
  destruct (Qeq_bool (m * f) 0) eqn:E; split; intros H; try reflexivity.
  - apply Qeq_bool_iff in E. contradiction.
  - apply Qeq_bool_neq in E. contradiction.
Qed.

Section Building.

(** The loop over the transactions, for either script: [add] stores the
    attributes [mk (amount, frequency)]. *)
Variable add : graph -> transaction -> result graph.
Variable mk : Q * Q -> attrs.
Hypothesis add_shape :
  forall G u v m f,
    (m * f == 0 -> add G (u, v, m, f) = Raise ZeroDivisionError) /\
    (~ m * f == 0 -> add G (u, v, m, f) = Ok (add_edge G u v (mk (m, f)))).

Lemma add_step G u v m f :
  add G (u, v, m, f) = Raise ZeroDivisionError \/
  add G (u, v, m, f) = Ok (add_edge G u v (mk (m, f))).
Proof.
  destruct (add_shape G u v m f) as [H1 H2].
  destruct (Qeq_dec (m * f) 0); [left | right]; auto.
Qed.


Lemma loop_nodes l :
  forall G G',
    for_each add l G = Ok G' ->
    forall n, mem G' n = true <-> mem G n = true \/ In n (endpoints l).
Proof.
  induction l as [|[[[u v] m] f] l IH]; intros G G' H n; cbn [for_each] in H.
  - injection H as <-. simpl. tauto.
  - destruct (add_step G u v m f) as [E|E]; rewrite E in H; cbn [bind] in H;
      [discriminate|].
    rewrite (IH _ _ H n), mem_add_edge. simpl.
    destruct (String.eqb_spec u n) as [->|Hu];
      destruct (String.eqb_spec v n) as [->|Hv]; simpl;
      intuition congruence.
Qed.

End Building.

Lemma add_nodes_mem l :
  forall G n,
    mem (fold_left add_node l G) n = true <-> In n l \/ mem G n = true.
Proof.
  induction l as [|x l IH]; intros G n; simpl; [tauto|].
  rewrite IH, mem_add_node.
  destruct (String.eqb_spec x n) as [->|Hne]; simpl; intuition congruence.
Qed.


(** X5.  The nodes of the graph a script builds are the listed accounts
    together with every account a transaction names: an endpoint that is
    not in the account list is added on the way. *)
Theorem built_graph_nodes :
  forall (accs : list node) (txs : list transaction) (G1 G2 : graph),
    build_graph1 accs txs = Ok G1 ->
    build_graph2 accs txs = Ok G2 ->
    forall n,
      (mem G1 n = true <-> In n accs \/ In n (endpoints txs)) /\
      (mem G2 n = true <-> In n accs \/ In n (endpoints txs)).
Proof.
  intros accs txs G1 G2 H1 H2 n. unfold build_graph1, build_graph2 in *.
  rewrite (loop_nodes add_transaction1 attrs1 add_transaction1_shape _ _ _ H1).
  rewrite (loop_nodes add_transaction2 attrs2 add_transaction2_shape _ _ _ H2).
  rewrite add_nodes_mem. unfold mem at 1 2. simpl. intuition congruence.
Qed.

Lemma built_graph_nodes_witness :
  (mem sample_graph "Offshore_X" = true <->
   In "Offshore_X" accounts \/ In "Offshore_X" (endpoints transactions)) /\
  (mem sample_graph2 "Offshore_X" = true <->
   In "Offshore_X" accounts \/ In "Offshore_X" (endpoints transactions)).
Proof.
  apply (built_graph_nodes accounts transactions sample_graph sample_graph2);
    vm_compute; reflexivity.
Defined.

Lemma get_succ_before G u v : get (succ_before G u) v = get_edge_data G u v.
Proof.
  unfold succ_before, get_edge_data. now destruct (get G u).
Qed.

Lemma get_edge_data_add_node G n u v :
  get_edge_data (add_node G n) u v = get_edge_data G u v.
Proof.
  unfold get_edge_data. rewrite get_add_node.
  destruct (get G u); [reflexivity|]. now destruct (String.eqb n u).
Qed.

(** Storing an edge changes the attributes of that edge and of no other. *)
Lemma get_edge_data_add_edge_any G u' v' a u v :
  get_edge_data (add_edge G u' v' a) u v =
  if String.eqb u' u && String.eqb v' v
  then Some (update_attrs (attrs_before G u' v') a)
  else get_edge_data G u v.
Proof.
  destruct (String.eqb_spec u' u) as [->|Hu]; simpl.
  - destruct (String.eqb_spec v' v) as [->|Hv].
    + apply get_edge_data_add_edge.
    + rewrite add_edge_unfold. unfold get_edge_data at 1.
      rewrite get_set_same, get_set_other by exact Hv.
      apply get_succ_before.
  - rewrite add_edge_unfold. unfold get_edge_data at 1.
    rewrite get_set_other by exact Hu.
    change (get_edge_data (add_node (add_node G u') v') u v
            = get_edge_data G u v).
    now rewrite !get_edge_data_add_node.
Qed.

Lemma add_nodes_no_edges l :
  forall G, no_edges G -> no_edges (fold_left add_node l G).
Proof.
  induction l as [|x l IH]; intros G H; simpl; [exact H|].
  apply IH. unfold add_node. destruct (mem G x); [exact H|].
  intros n succ_n Hin. apply In_set in Hin.
  destruct Hin as [[_ ->]|Hin]; [reflexivity | now apply (H n)].
Qed.

Lemma no_edges_get_edge_data G u v : no_edges G -> get_edge_data G u v = None.
Proof.
  intros H. unfold get_edge_data.
  destruct (get G u) as [succ_u|] eqn:E; [|reflexivity].
  apply get_In in E. now rewrite (H _ _ E).
Qed.

Section Edges.

Variable add : graph -> transaction -> result graph.
Variable mk : Q * Q -> attrs.
Variable ok : attrs -> Prop.
Hypothesis add_shape :
  forall G u v m f,
    (m * f == 0 -> add G (u, v, m, f) = Raise ZeroDivisionError) /\
    (~ m * f == 0 -> add G (u, v, m, f) = Ok (add_edge G u v (mk (m, f)))).
Hypothesis ok_none : ok no_attrs.
Hypothesis ok_mk : forall mf, ok (mk mf).
Hypothesis mk_replaces :
  forall old mf, ok old -> update_attrs old (mk mf) = mk mf.

Lemma loop_edges l :
  forall G G',
    (forall u v e, get_edge_data G u v = Some e -> ok e) ->
    for_each add l G = Ok G' ->
    forall u v,
      get_edge_data G' u v =
      match last_for u v l with
      | Some mf => Some (mk mf)
      | None => get_edge_data G u v
      end.
Proof.
  induction l as [|[[[u' v'] m] f] l IH]; intros G G' Hok H u v;
    cbn [for_each] in H.
  - injection H as <-. reflexivity.
  - destruct (add_step add mk add_shape G u' v' m f) as [E|E];
      rewrite E in H; cbn [bind] in H; [discriminate|].
    assert (Hold : ok (attrs_before G u' v')).
    { unfold attrs_before. rewrite get_succ_before.
      destruct (get_edge_data G u' v') as [e|] eqn:Ee;
        [now apply (Hok u' v') | exact ok_none]. }
    assert (Hok' : forall u v e,
              get_edge_data (add_edge G u' v' (mk (m, f))) u v = Some e ->
              ok e).
    { intros u0 v0 e. rewrite get_edge_data_add_edge_any.
      destruct (String.eqb u' u0 && String.eqb v' v0).
      - intros E'. injection E' as <-. rewrite mk_replaces by exact Hold.
        apply ok_mk.
      - apply Hok. }
    rewrite (IH _ _ Hok' H u v). cbn [last_for].
    destruct (last_for u v l); [reflexivity|].
    rewrite get_edge_data_add_edge_any.
    destruct (String.eqb u' u && String.eqb v' v); [|reflexivity].
    now rewrite mk_replaces.
Qed.

End Edges.

Lemma build_graph1_edges accs txs G :
  build_graph1 accs txs = Ok G ->
  forall u v, get_edge_data G u v = option_map attrs1 (last_for u v txs).
Proof.
  intros H u v. unfold build_graph1 in H.
  assert (Hno : no_edges (fold_left add_node accs empty_graph))
    by (apply add_nodes_no_edges; intros n s []).
  rewrite (loop_edges add_transaction1 attrs1 (fun _ => True)
             add_transaction1_shape I (fun _ => I) (fun _ _ _ => eq_refl)
             txs _ _ (fun _ _ _ _ => I) H u v).
  rewrite (no_edges_get_edge_data _ _ _ Hno).
  now destruct (last_for u v txs).
Qed.

Lemma build_graph2_edges accs txs G :
  build_graph2 accs txs = Ok G ->
  forall u v, get_edge_data G u v = option_map attrs2 (last_for u v txs).
Proof.
  intros H u v. unfold build_graph2 in H.
  assert (Hno : no_edges (fold_left add_node accs empty_graph))
    by (apply add_nodes_no_edges; intros n s []).
  assert (Hrep : forall old mf,
            a_monto old = None /\ a_frecuencia old = None ->
            update_attrs old (attrs2 mf) = attrs2 mf).
  { intros [w mo fr sc] mf [Hm Hf]. simpl in Hm, Hf. subst. reflexivity. }
  assert (Hok : forall u v e,
            get_edge_data (fold_left add_node accs empty_graph) u v = Some e ->
            a_monto e = None /\ a_frecuencia e = None).
  { intros u0 v0 e. rewrite (no_edges_get_edge_data _ _ _ Hno). discriminate. }
  rewrite (loop_edges add_transaction2 attrs2
             (fun e => a_monto e = None /\ a_frecuencia e = None)
             add_transaction2_shape (conj eq_refl eq_refl)
             (fun _ => conj eq_refl eq_refl) Hrep txs _ _ Hok H u v).
  rewrite (no_edges_get_edge_data _ _ _ Hno).
  now destruct (last_for u v txs).
Qed.

(** X6.  Between two accounts the graph has the edge of the last
    transaction that names them in this order, with the attributes of that
    transaction alone (an earlier transaction between the same two accounts
    is overwritten, nothing is added up), and it has no other edge. *)
Theorem built_graph_edges_last_write_wins :
  forall (accs : list node) (txs : list transaction) (G1 G2 : graph),
    build_graph1 accs txs = Ok G1 ->
    build_graph2 accs txs = Ok G2 ->
    forall u v,
      get_edge_data G1 u v = option_map attrs1 (last_for u v txs) /\
      get_edge_data G2 u v = option_map attrs2 (last_for u v txs).
Proof.
  intros accs txs G1 G2 H1 H2 u v. split.
  - now apply build_graph1_edges with accs.
  - now apply build_graph2_edges with accs.
Qed.

Lemma built_graph_edges_last_write_wins_witness :
  get_edge_data sample_graph "Cuenta_A" "Cuenta_B"
    = option_map attrs1 (last_for "Cuenta_A" "Cuenta_B" transactions) /\
  get_edge_data sample_graph2 "Cuenta_A" "Cuenta_B"
    = option_map attrs2 (last_for "Cuenta_A" "Cuenta_B" transactions).
Proof.
  apply (built_graph_edges_last_write_wins accounts transactions);
    vm_compute; reflexivity.
Defined.

(** ** No node twice, no edge twice *)










(** ** The amounts along the route *)






(** ** The nearest high-risk account *)

Lemma nearest_loop_inv G a l :
  forall done st st',
    nearest_inv G a done st ->
    for_each (nearest_step G a) l st = Ok st' ->
    nearest_inv G a (done ++ l) st'.
Proof.
  induction l as [|r0 l IH]; intros done st st' Hinv H; cbn [for_each] in H.
  - injection H as <-. now rewrite app_nil_r.
  - replace (done ++ r0 :: l) with ((done ++ [r0]) ++ l)
      by (rewrite <- app_assoc; reflexivity).
    destruct (nearest_step G a st r0) as [st1|] eqn:E1; cbn [bind] in H;
      [|discriminate].
    apply (IH _ st1); [|exact H]. clear IH H.
    unfold nearest_step in E1. unfold nearest_inv in *.
    destruct (dijkstra_path_length G a r0) as [d|e] eqn:Ed.
    + destruct st as [[m|] c]; cbn [fst snd xltb] in *.
      * destruct Hinv as (r & l1 & l2 & Hc & Hdone & Hr & Hfirst & Hall).
        destruct (Qltb d m) eqn:El; injection E1 as <-; cbn [fst snd].
        -- apply Qltb_true in El.
           exists r0, done, []. repeat split; auto.
           ++ intros r' d' Hr' Hd'. specialize (Hall _ _ Hr' Hd'). lra.
           ++ intros r' d' Hr' Hd'. apply in_app_or in Hr'.
              destruct Hr' as [Hr'|[<-|[]]].
              ** specialize (Hall _ _ Hr' Hd'). lra.
              ** rewrite Ed in Hd'. injection Hd' as <-. apply Qle_refl.
        -- apply Qltb_false in El.
           exists r, l1, (l2 ++ [r0]). repeat split; auto.
           ++ rewrite Hdone, <- app_assoc. reflexivity.
           ++ intros r' d' Hr' Hd'. apply in_app_or in Hr'.
              destruct Hr' as [Hr'|[<-|[]]]; [now apply (Hall r')|].
              rewrite Ed in Hd'. now injection Hd' as <-.
      * destruct Hinv as [Hc Hnone]. injection E1 as <-. cbn [fst snd].
        exists r0, done, []. repeat split; auto.
        -- intros r' d' Hr' Hd'. exfalso. exact (Hnone _ _ Hr' Hd').
        -- intros r' d' Hr' Hd'. apply in_app_or in Hr'.
           destruct Hr' as [Hr'|[<-|[]]].
           ++ exfalso. exact (Hnone _ _ Hr' Hd').
           ++ rewrite Ed in Hd'. injection Hd' as <-. apply Qle_refl.
    + assert (E : st1 = st) by (destruct e; congruence). subst st1.
      destruct (fst st) as [m|].
      * destruct Hinv as (r & l1 & l2 & Hc & Hdone & Hr & Hfirst & Hall).
        exists r, l1, (l2 ++ [r0]). repeat split; auto.
        -- rewrite Hdone, <- app_assoc. reflexivity.
        -- intros r' d' Hr' Hd'. apply in_app_or in Hr'.
           destruct Hr' as [Hr'|[<-|[]]]; [now apply (Hall r')|].
           congruence.
      * destruct Hinv as [Hc Hnone]. split; [exact Hc|].
        intros r' d' Hr' Hd'. apply in_app_or in Hr'.
        destruct Hr' as [Hr'|[<-|[]]]; [exact (Hnone _ _ Hr' Hd')|].
        congruence.
Qed.

Lemma risk_entry_of_spec G hr a e :
  risk_entry_of G hr a = Ok e ->
  nearest_inv G a hr (distancia e, cuenta_cercana e) /\
  match distancia e with
  | Finite m => puntaje_riesgo e = 1000 / m /\ ~ m == 0
  | Infinity => puntaje_riesgo e = 0
  end.
Proof.
  unfold risk_entry_of.
  destruct (for_each (nearest_step G a) hr (Infinity, None)) as [[m c]|] eqn:E;
    cbn [bind]; [|discriminate].
  assert (Hinv : nearest_inv G a hr (m, c)).
  { apply (nearest_loop_inv G a hr [] (Infinity, None)); [|exact E].
    split; [reflexivity | intros r d []]. }
  cbn [fst snd]. destruct m as [m|].
  - unfold py_div. destruct (Qeq_bool m 0) eqn:Ez; cbn [bind]; [discriminate|].
    intros H. injection H as <-. cbn [distancia cuenta_cercana puntaje_riesgo].
    split; [exact Hinv|]. split; [reflexivity|].
    now apply Qeq_bool_neq.
  - intros H. injection H as <-. cbn [distancia cuenta_cercana puntaje_riesgo].
    split; [|reflexivity].
    destruct Hinv as [_ Hnone]. split; [reflexivity | exact Hnone].
Qed.

Lemma risk_scores1_entry G accs hr rs a e :
  risk_scores1 G accs hr = Ok rs -> get rs a = Some e ->
  In a accs /\ ~ In a hr /\ risk_entry_of G hr a = Ok e.
Proof.
  intros H He.
  destruct (keyed_get (fun a => in_list a hr) (risk_entry_of G hr)
              (risk_step1 G hr) (risk_step1_eq G hr) accs [] rs H a)
    as [H1 H2].
  destruct (in_dec string_dec a accs) as [Ha|Ha];
    [|rewrite H2 in He by (now left); discriminate].
  destruct (in_list a hr) eqn:Es;
    [rewrite H2 in He by (now right); discriminate|].
  destruct (H1 Ha eq_refl) as (e' & Ee & Eg).
  rewrite Eg in He. injection He as <-.
  repeat split; auto. intros Hin. apply in_list_In in Hin. congruence.
Qed.

(** X8.  An entry of the risk scores of the first script belongs to a
    listed account outside the high-risk list.  Its distance is infinite,
    with score 0 and no nearest account, when no search from the account
    found a high-risk account; otherwise the nearest account is the first
    high-risk account of the list at the least distance, the distance is
    the length of the search to it, and the score is 1000 over it. *)
Theorem risk_entry_names_the_nearest_account :
  forall (G : graph) (accs hr : list node) (rs : dict risk_entry)
         (a : node) (e : risk_entry),
    risk_scores1 G accs hr = Ok rs ->
    get rs a = Some e ->
    In a accs /\ ~ In a hr /\
    match distancia e with
    | Infinity =>
        puntaje_riesgo e = 0 /\ cuenta_cercana e = None /\
        forall r d, In r hr -> dijkstra_path_length G a r <> Ok d
    | Finite m =>
        puntaje_riesgo e = 1000 / m /\
        exists r l1 l2,
          cuenta_cercana e = Some r /\ hr = l1 ++ r :: l2 /\
          dijkstra_path_length G a r = Ok m /\
          (forall r' d', In r' l1 ->
             dijkstra_path_length G a r' = Ok d' -> m < d') /\
          (forall r' d', In r' hr ->
             dijkstra_path_length G a r' = Ok d' -> m <= d')
    end.
Proof.
  intros G accs hr rs a e H He.
  destruct (risk_scores1_entry G accs hr rs a e H He) as (Ha & Hn & Ee).
  split; [exact Ha|]. split; [exact Hn|].
  destruct (risk_entry_of_spec G hr a e Ee) as [Hinv Hp].
  unfold nearest_inv in Hinv. cbn [fst snd] in Hinv.
  destruct (distancia e) as [m|].
  - split; [exact (proj1 Hp) | exact Hinv].
  - destruct Hinv as [Hc Hnone]. auto.
Qed.

Lemma risk_entry_names_the_nearest_account_witness :
  In "Cuenta_A" accounts /\ ~ In "Cuenta_A" high_risk_accounts /\
  (5400000000000000000 # 96600000000000
   = 1000 / (96600000000000 # 5400000000000000) /\
   exists r l1 l2,
     Some "Offshore_X" = Some r /\ high_risk_accounts = l1 ++ r :: l2 /\
     dijkstra_path_length sample_graph "Cuenta_A" r
       = Ok (96600000000000 # 5400000000000000) /\
     (forall r' d', In r' l1 ->
        dijkstra_path_length sample_graph "Cuenta_A" r' = Ok d' ->
        96600000000000 # 5400000000000000 < d') /\
     (forall r' d', In r' high_risk_accounts ->
        dijkstra_path_length sample_graph "Cuenta_A" r' = Ok d' ->
        96600000000000 # 5400000000000000 <= d')).
Proof.
  apply (risk_entry_names_the_nearest_account sample_graph accounts
           high_risk_accounts sample_risk_scores "Cuenta_A"
           (mkRisk (5400000000000000000 # 96600000000000) (Some "Offshore_X")
                   (Finite (96600000000000 # 5400000000000000))));
    vm_compute; reflexivity.
Defined.





(** ** Who is flagged *)




(** X11.  A larger threshold flags at least the same accounts: a smaller
    threshold is the stricter one. *)
Theorem larger_threshold_flags_more :
  forall (rs : dict xdist) (accs : list node) (t1 t2 : Q)
         (p1 p2 : dict Z) (a : node),
    t1 <= t2 ->
    predict rs t1 accs = Ok p1 ->
    predict rs t2 accs = Ok p2 ->
    get p1 a = Some 1%Z ->
    get p2 a = Some 1%Z.
Proof.
  intros rs accs t1 t2 p1 p2 a Ht H1 H2 Ha.
  destruct (predict_get rs t1 accs [] p1 H1) as [A1 B1].
  destruct (predict_get rs t2 accs [] p2 H2) as [A2 _].
  destruct (in_dec string_dec a accs) as [Hin|Hnin];
    [|rewrite (B1 a Hnin) in Ha; discriminate].
  destruct (A1 a Hin) as (d & Ed & E1).
  destruct (A2 a Hin) as (d' & Ed' & E2).
  rewrite Ed in Ed'. injection Ed' as <-.
  rewrite E1 in Ha. injection Ha as Ha. apply classify_fraud in Ha.
  rewrite E2. f_equal. apply classify_fraud.
  destruct d as [x|]; simpl in *; [|contradiction].
  now apply Qlt_le_trans with t1.
Qed.

Lemma larger_threshold_flags_more_witness :
  get sample_predictions "Cuenta_A" = Some 1%Z.
Proof.
  apply (larger_threshold_flags_more sample_risk_distances accounts
           THRESHOLD (1 # 10) sample_predictions sample_predictions
           "Cuenta_A");
    vm_compute; (reflexivity || discriminate).
Defined.

(** ** Evaluation: missing labels and a single class *)



Lemma lookup_all_constant {V : Type} (d : dict V) keys (L : V) :
  (forall k, In k keys -> get d k = Some L) ->
  lookup_all d keys = Ok (repeat L (List.length keys)).
Proof.
  induction keys as [|k keys IH]; intros H; cbn [lookup_all]; [reflexivity|].
  rewrite (H k (or_introl eq_refl)), IH by (intros; apply H; now right).
  reflexivity.
Qed.

Lemma unique_labels_constant L n m :
  (0 < n)%nat ->
  unique_labels (repeat L n) (repeat L m) = [L].
Proof.
  intros Hn. unfold unique_labels. rewrite <- repeat_app.
  destruct n as [|n]; [lia|]. simpl.
  induction (n + m)%nat as [|k IH]; simpl; [reflexivity|].
  rewrite IH. simpl. now rewrite Z.compare_refl.
Qed.

Lemma count_pair_constant L n :
  count_pair L L (combine (repeat L n) (repeat L n)) = n.
Proof.
  unfold count_pair. induction n as [|n IH]; simpl; [reflexivity|].
  rewrite Z.eqb_refl. simpl. now rewrite IH.
Qed.

(** X13.  When the ground truth and the predictions give every account the
    same single label, the confusion matrix has one cell only, holding the
    number of accounts. *)
Theorem single_label_gives_one_cell :
  forall (accs : list node) (gt preds : dict Z) (L : Z),
    accs <> [] ->
    (forall a, In a accs -> get gt a = Some L /\ get preds a = Some L) ->
    evaluate accs gt preds = Ok [[List.length accs]].
Proof.
  intros accs gt preds L Hne H. unfold evaluate.
  rewrite (lookup_all_constant gt accs L) by (intros k Hk; apply (H k Hk)).
  rewrite (lookup_all_constant preds accs L) by (intros k Hk; apply (H k Hk)).
  cbn [bind]. unfold confusion_matrix.
  rewrite unique_labels_constant by (destruct accs; [congruence | simpl; lia]).
  cbn [map]. now rewrite count_pair_constant.
Qed.

Lemma single_label_gives_one_cell_witness :
  evaluate ["Offshore_X"; "Offshore_Y"] ground_truth sample_predictions
  = Ok [[List.length ["Offshore_X"; "Offshore_Y"]]].
Proof.
  apply (single_label_gives_one_cell ["Offshore_X"; "Offshore_Y"]
           ground_truth sample_predictions 1%Z).
  - discriminate.
  - intros a [<-|[<-|[]]]; split; reflexivity.
Defined.

(** ** What the search reads *)

Lemma dijkstra_path_weighted G1 G2 s t :
  weighted G1 = weighted G2 ->
  dijkstra_path G1 s t = dijkstra_path G2 s t.
Proof.
  intros H. unfold dijkstra_path, dijkstra_multisource, loop_bound.
  rewrite (weighted_mem _ _ s H), !number_of_edges_weighted, H.
  now rewrite (dijkstra_loop_weighted G1 G2 t H).
Qed.

(** X14.  The search depends on the nodes, the order of the successors and
    the weights only: the amount, frequency and suspicion score stored on
    the edges do not change the path or the length it returns. *)
Theorem search_reads_weights_only :
  forall (G1 G2 : graph) (s t : node),
    weighted G1 = weighted G2 ->
    dijkstra_path G1 s t = dijkstra_path G2 s t /\
    dijkstra_path_length G1 s t = dijkstra_path_length G2 s t.
Proof.
  intros G1 G2 s t H. split.
  - now apply dijkstra_path_weighted.
  - now apply dijkstra_path_length_weighted.
Qed.

Lemma search_reads_weights_only_witness :
  dijkstra_path sample_graph "Cuenta_A" "Offshore_X"
    = dijkstra_path sample_graph2 "Cuenta_A" "Offshore_X" /\
  dijkstra_path_length sample_graph "Cuenta_A" "Offshore_X"
    = dijkstra_path_length sample_graph2 "Cuenta_A" "Offshore_X".
Proof.
  apply (search_reads_weights_only sample_graph sample_graph2).
  vm_compute. reflexivity.
Defined.

(** ** Distances along a transaction *)





(** X16.  With valid transactions and a threshold that is zero or negative
    no account is labelled fraud, the high-risk accounts included. *)
Theorem nonpositive_threshold_flags_nobody :
  forall (accs : list node) (gt : dict Z) (txs : list transaction)
         (hr : list node) (t : Q) (a : node),
    valid_transactions txs -> t <= 0 -> In a accs ->
    exists rs preds ev,
      script2 accs gt txs hr t = Ok (rs, preds, ev) /\
      get preds a = Some 0%Z.
Proof.
  intros accs gt txs hr t a Hv Ht Ha.
  destruct (scoring2_ok accs txs hr t Hv)
    as (G & rs & preds & EG & HG & Ers & Ep & Es).
  exists rs, preds, (evaluate accs gt preds).
  split; [unfold script2; now rewrite Es|].
  destruct (risk_scores2_ok G accs hr HG) as (rs' & Ers' & Hrs).
  rewrite Ers in Ers'. injection Ers' as <-.
  destruct (Hrs a Ha) as (m & Em & Hmin & _).
  destruct (predict_get rs t accs [] preds Ep) as [Hp _].
  destruct (Hp a Ha) as (d & Ed & Epa).
  rewrite Em in Ed. injection Ed as <-.
  destruct HG as (Hwf & Hpos & Hacc).
  destruct (min_distance_of_ok G a Hwf Hpos (Hacc a Ha) hr)
    as (m' & Em' & Hs & _).
  rewrite Hmin in Em'. injection Em' as <-.
  rewrite Epa. f_equal. apply classify_clean.
  destruct Hs as [->|[->|(q & -> & Hq)]]; simpl; [tauto | lra | lra].
Qed.

Lemma nonpositive_threshold_flags_nobody_witness :
  exists rs preds ev,
    script2 accounts ground_truth transactions high_risk_accounts 0
      = Ok (rs, preds, ev) /\
    get preds "Offshore_X" = Some 0%Z.
Proof.
  apply (nonpositive_threshold_flags_nobody accounts ground_truth
           transactions high_risk_accounts 0 "Offshore_X").
  - repeat constructor.
  - apply Qle_refl.
  - simpl. tauto.
Defined.

(** ** The table of errors and the confusion matrix *)

Lemma lookup_all_length {V : Type} (d : dict V) keys vs :
  lookup_all d keys = Ok vs -> List.length vs = List.length keys.
Proof.
  revert vs. induction keys as [|k keys IH]; intros vs H; cbn [lookup_all] in H.
  - now injection H as <-.
  - destruct (get d k) as [v|]; [|discriminate].
    destruct (lookup_all d keys) as [vs'|]; cbn [bind] in H; [|discriminate].
    injection H as <-. simpl. now rewrite (IH vs').
Qed.

Lemma rows_counts :
  forall (accs : list node) (real pred : list Z) (dist : list xdist),
    List.length real = List.length accs ->
    List.length pred = List.length accs ->
    List.length dist = List.length accs ->
    (forall l, In l (real ++ pred) -> l = 0%Z \/ l = 1%Z) ->
    let df := map (fun x =>
                     mkRow (fst x) (label_name (fst (snd x)))
                           (label_name (fst (snd (snd x))))
                           (snd (snd (snd x))))
                  (combine accs (combine real (combine pred dist))) in
    List.length (false_positives df) = FP (combine real pred) /\
    List.length (false_negatives df) = FN (combine real pred).
Proof.
  induction accs as [|a accs IH]; intros [|g real] [|q pred] [|x dist];
    simpl; intros Hr Hp Hd Hbin; try discriminate; [now split|].
  injection Hr as Hr. injection Hp as Hp. injection Hd as Hd.
  destruct (IH real pred dist Hr Hp Hd) as [IH1 IH2].
  { intros l Hl. apply Hbin. apply in_app_or in Hl. right.
    apply in_or_app. destruct Hl; [left | right; now right]. assumption. }
  assert (Hg : g = 0%Z \/ g = 1%Z) by (apply Hbin; now left).
  assert (Hq : q = 0%Z \/ q = 1%Z)
    by (apply Hbin; right; apply in_or_app; right; now left).
  unfold FP, FN, false_positives, false_negatives in *.
  rewrite !count_pair_cons. cbn [filter Real Prediccion fst snd].
  destruct Hg as [-> | ->], Hq as [-> | ->]; simpl; rewrite ?IH1, ?IH2;
    split; reflexivity.
Qed.

(** X17.  The table of errors has one row per listed account, in order.
    With labels 0 and 1, the rows printed as false positives are as many as
    the FP count of the confusion matrix and the rows printed as false
    negatives as many as its FN count. *)
Theorem error_table_matches_the_matrix :
  forall (accs : list node) (gt preds : dict Z) (rs : dict xdist)
         (df : list result_row),
    results_df accs gt preds rs = Ok df ->
    exists y_true y_pred,
      lookup_all gt accs = Ok y_true /\
      lookup_all preds accs = Ok y_pred /\
      map Cuenta df = accs /\
      ((forall l, In l (y_true ++ y_pred) -> l = 0%Z \/ l = 1%Z) ->
       List.length (false_positives df) = FP (combine y_true y_pred) /\
       List.length (false_negatives df) = FN (combine y_true y_pred)).
Proof.
  intros accs gt preds rs df. unfold results_df.
  destruct (lookup_all gt accs) as [real|] eqn:Er; cbn [bind]; [|discriminate].
  destruct (lookup_all preds accs) as [pred|] eqn:Ep; cbn [bind];
    [|discriminate].
  destruct (lookup_all rs accs) as [dist|] eqn:Ed; cbn [bind]; [|discriminate].
  intros H. injection H as <-. exists real, pred.
  apply lookup_all_length in Er, Ep, Ed.
  split; [reflexivity|]. split; [reflexivity|]. split.
  - rewrite map_map. cbn [Cuenta].
    clear - Er Ep Ed. revert real pred dist Er Ep Ed.
    induction accs as [|a accs IH]; intros [|g real] [|q pred] [|x dist];
      simpl; intros Hr Hp Hd; try discriminate; [reflexivity|].
    f_equal. apply IH; congruence.
  - intros Hbin. now apply rows_counts.
Qed.

Lemma error_table_matches_the_matrix_witness :
  exists df y_true y_pred,
    results_df accounts ground_truth sample_predictions sample_risk_distances
      = Ok df /\
    lookup_all ground_truth accounts = Ok y_true /\
    lookup_all sample_predictions accounts = Ok y_pred /\
    map Cuenta df = accounts /\
    ((forall l, In l (y_true ++ y_pred) -> l = 0%Z \/ l = 1%Z) ->
     List.length (false_positives df) = FP (combine y_true y_pred) /\
     List.length (false_negatives df) = FN (combine y_true y_pred)).
Proof.
  eexists.
  assert (E : results_df accounts ground_truth sample_predictions
                sample_risk_distances = Ok _) by (vm_compute; reflexivity).
  destruct (error_table_matches_the_matrix _ _ _ _ _ E) as (yt & yp & H).
  exists yt, yp. split; [exact E | exact H].
Defined.

(** ** The number of edges *)

Lemma length_set {V : Type} (d : dict V) k v :
  List.length (set d k v)
  = (List.length d + if mem d k then 0 else 1)%nat.
Proof.
  unfold mem. induction d as [|[k' v'] d IH]; simpl; [reflexivity|].
  destruct (String.eqb k' k); simpl; [lia|]. rewrite IH.
  destruct (get d k); lia.
Qed.

Lemma number_of_edges_set G k s :
  (number_of_edges (set G k s) + List.length (succ_before G k)
   = number_of_edges G + List.length s)%nat.
Proof.
  unfold succ_before. induction G as [|[k' s'] G IH]; simpl; [lia|].
  destruct (String.eqb k' k); simpl; lia.
Qed.

Lemma number_of_edges_add_node G n :
  number_of_edges (add_node G n) = number_of_edges G.
Proof.
  unfold add_node. destruct (mem G n) eqn:E; [reflexivity|].
  pose proof (number_of_edges_set G n []) as H.
  unfold succ_before, mem in *. destruct (get G n); [discriminate|].
  simpl in H. lia.
Qed.

Lemma succ_before_add_node G n u :
  succ_before (add_node G n) u = succ_before G u.
Proof.
  unfold succ_before. rewrite get_add_node.
  destruct (get G u); [reflexivity|]. now destruct (String.eqb n u).
Qed.

(** Storing an edge adds one edge when the pair had none, and none when it
    had one. *)
Lemma number_of_edges_add_edge G u v a :
  number_of_edges (add_edge G u v a)
  = (number_of_edges G
     + match get_edge_data G u v with Some _ => 0 | None => 1 end)%nat.
Proof.
  rewrite add_edge_unfold.
  pose proof (number_of_edges_set (add_node (add_node G u) v) u
                (set (succ_before G u) v
                     (update_attrs (attrs_before G u v) a))) as H.
  rewrite !succ_before_add_node, !number_of_edges_add_node, length_set in H.
  unfold mem in H. rewrite get_succ_before in H.
  destruct (get_edge_data G u v); lia.
Qed.

Lemma no_edges_number G : no_edges G -> number_of_edges G = 0%nat.
Proof.
  induction G as [|[n s] G IH]; intros H; simpl; [reflexivity|].
  rewrite (H n s) by now left. simpl. apply IH.
  intros n' s' Hin. apply (H n'). now right.
Qed.

Section Counting.

Variable add : graph -> transaction -> result graph.
Variable mk : Q * Q -> attrs.
Hypothesis add_shape :
  forall G u v m f,
    (m * f == 0 -> add G (u, v, m, f) = Raise ZeroDivisionError) /\
    (~ m * f == 0 -> add G (u, v, m, f) = Ok (add_edge G u v (mk (m, f)))).

Lemma loop_edge_count l :
  forall G G',
    for_each add l G = Ok G' ->
    (number_of_edges G' <= number_of_edges G + List.length l)%nat /\
    (NoDup (map pair_of l) ->
     (forall t, In t l ->
        get_edge_data G (fst (pair_of t)) (snd (pair_of t)) = None) ->
     number_of_edges G' = (number_of_edges G + List.length l)%nat).
Proof.
  induction l as [|[[[u v] m] f] l IH]; intros G G' H; cbn [for_each] in H.
  - injection H as <-. simpl. split; [lia | intros; lia].
  - destruct (add_step add mk add_shape G u v m f) as [E|E];
      rewrite E in H; cbn [bind] in H; [discriminate|].
    destruct (IH _ _ H) as [IH1 IH2].
    rewrite number_of_edges_add_edge in IH1, IH2. split.
    + simpl. destruct (get_edge_data G u v); lia.
    + intros Hnd Hfresh. simpl in Hnd.
      inversion Hnd as [|? ? Hnin Hnd']; subst.
      rewrite IH2; [| exact Hnd' |].
      * pose proof (Hfresh (u, v, m, f) (or_introl eq_refl)) as Hf.
        simpl in Hf. rewrite Hf. simpl. lia.
      * intros [[[u' v'] m'] f'] Hin. simpl.
        rewrite get_edge_data_add_edge_any.
        destruct (String.eqb_spec u u') as [->|_]; simpl;
          [|exact (Hfresh _ (or_intror Hin))].
        destruct (String.eqb_spec v v') as [->|_];
          [|exact (Hfresh _ (or_intror Hin))].
        exfalso. apply Hnin.
        change (u', v') with (pair_of (u', v', m', f')). now apply in_map.
Qed.

End Counting.

(** X18.  The graph of the first script has at most as many edges as there
    are transactions, and exactly as many when no ordered pair of accounts
    occurs twice in the list. *)
Theorem one_edge_per_pair_of_accounts :
  forall (accs : list node) (txs : list transaction) (G : graph),
    build_graph1 accs txs = Ok G ->
    (number_of_edges G <= List.length txs)%nat /\
    (NoDup (map pair_of txs) -> number_of_edges G = List.length txs).
Proof.
  intros accs txs G H. unfold build_graph1 in H.
  assert (Hno : no_edges (fold_left add_node accs empty_graph))
    by (apply add_nodes_no_edges; intros n s []).
  destruct (loop_edge_count add_transaction1 attrs1 add_transaction1_shape
              txs _ _ H) as [H1 H2].
  rewrite (no_edges_number _ Hno) in H1, H2. split; [exact H1|].
  intros Hnd. apply H2; [exact Hnd|].
  intros t _. now apply no_edges_get_edge_data.
Qed.

Lemma one_edge_per_pair_of_accounts_witness :
  (number_of_edges sample_graph <= List.length transactions)%nat /\
  (NoDup (map pair_of transactions) ->
   number_of_edges sample_graph = List.length transactions).
Proof.
  apply (one_edge_per_pair_of_accounts accounts transactions).
  vm_compute. reflexivity.
Defined.
